(** * jmux: a path-based request router (Go), embedded in Rocq

    The development follows the newest revision of the router source: the
    one with [getRoute], the marker for the empty segment of a trailing
    slash, the slash-child step of [getParentMatch] and the [notFoundHandler]
    field, which is the revision the repository's newest test exercises.
    ([router.go] is an earlier revision of the same file: it drops a
    trailing slash at registration and has no marker.)

    Go pointers to [Route] objects are modelled as indices into an explicit
    store, so that the aliasing between a node, its [parent] back-reference
    and the handle returned by [Handle] is kept. *)

From Stdlib Require Import ZArith String Ascii List Lia.
From stdpp Require Import base gmap sets list strings.

Local Open Scope Z_scope.

(** ** Go strings: byte sequences with integer indices *)

Module GoString.

(** [len(s)] *)
Definition len (s : string) : Z := Z.of_nat (String.length s).

Fixpoint drop (n : nat) (s : string) : string :=
  match n, s with
  | O, _ => s
  | S n', String _ s' => drop n' s'
  | S _, EmptyString => EmptyString
  end.

Fixpoint take (n : nat) (s : string) : string :=
  match n, s with
  | O, _ => EmptyString
  | S n', String c s' => String c (take n' s')
  | S _, EmptyString => EmptyString
  end.

(** [s[i]]; the source only indexes within bounds, an index outside is
    [None] here and compares different from every byte. *)
Definition byte_at (s : string) (i : Z) : option ascii :=
  if i <? 0 then None else String.get (Z.to_nat i) s.

(** [s[lo:hi]] *)
Definition slice (s : string) (lo hi : Z) : string :=
  take (Z.to_nat (hi - lo)) (drop (Z.to_nat lo) s).

(** [s[lo:]] *)
Definition slice_from (s : string) (lo : Z) : string :=
  drop (Z.to_nat lo) s.

(** [strings.IndexByte(s, c)]: index of the first [c] in [s], or [-1]. *)
Fixpoint IndexByte (s : string) (c : ascii) : Z :=
  match s with
  | EmptyString => -1
  | String a s' =>
      if Ascii.eqb a c then 0
      else let r := IndexByte s' c in
           if r =? -1 then -1 else r + 1
  end.

End GoString.

Import GoString.

(** [func nextSlug(path string) int] *)
Definition nextSlug (path : string) : Z := IndexByte path "/"%char.

(** ** Method sets: [type Methods map[string]Unit] *)

Abbreviation Methods := (gset string).

(** [const MethodAll = ""] *)
Definition MethodAll : string := "".

Definition MethodGet : string := "GET".
Definition MethodPost : string := "POST".
Definition MethodPut : string := "PUT".
Definition MethodDelete : string := "DELETE".

(** [m[method] = Unit{}] *)
Definition Set_ (m : Methods) (method : string) : Methods := {[ method ]} ∪ m.

(** [delete(m, method)] *)
Definition Unset (m : Methods) (method : string) : Methods := m ∖ {[ method ]}.

(** [NewMethods(methods ...string)] *)
Definition NewMethods (methods : list string) : Methods :=
  foldl Set_ ∅ methods.

Definition MethodsGet : Methods := {[ MethodGet ]}.
Definition MethodsPost : Methods := {[ MethodPost ]}.
Definition MethodsPut : Methods := {[ MethodPut ]}.
Definition MethodsDelete : Methods := {[ MethodDelete ]}.
Definition MethodsAll : Methods := {[ MethodAll ]}.

(** [for method := range methods { m[method] = Unit{} }] *)
Definition CopyFrom (m methods : Methods) : Methods :=
  set_fold (fun method acc => Set_ acc method) m methods.

Definition CloneMethods (methods : Methods) : Methods := CopyFrom ∅ methods.
Definition CopyMethods (methods : Methods) : Methods := CloneMethods methods.

Definition Has (m : Methods) (method : string) : bool :=
  bool_decide (method ∈ m).

Definition HasOrAll (m : Methods) (method : string) : bool :=
  let has := bool_decide (method ∈ m) in
  let all := bool_decide (MethodAll ∈ m) in
  has || all.

(** ** Handlers

    A [Handler] is a Go interface value: either [nil] or some handler.  The
    handlers themselves are opaque to the router, so a non-nil handler is just
    an identity; [WriteNotFound] is the closure installed by [NewRouter],
    which writes status 404. *)

Inductive HandlerImpl : Type :=
| WriteNotFound
| UserHandler (id : nat).

#[global] Instance HandlerImpl_eq_dec : EqDecision HandlerImpl.
Proof. solve_decision. Defined.

Abbreviation Handler := (option HandlerImpl).

(** [m[k]] on a [map[string]Handler]: the zero value [nil] when absent. *)
Definition index_handler (m : gmap string Handler) (k : string) : Handler :=
  default None (m !! k).

(** [for method := range methods { m[method] = h }] *)
Definition assign_all (m : gmap string Handler) (methods : Methods) (h : Handler)
  : gmap string Handler :=
  set_fold (fun method acc => <[method := h]> acc) m methods.

(** ** Routes and the router *)

Record Route : Type := mkRoute {
  name : string;
  param : bool;
  methods : Methods;
  matchAny : gmap string Handler;
  routes : gmap string nat;
  handlers : gmap string Handler;
  parent : option nat
}.

Definition set_methods (r : Route) (ms : Methods) : Route :=
  mkRoute (name r) (param r) ms (matchAny r) (routes r) (handlers r) (parent r).
Definition set_matchAny (r : Route) (ma : gmap string Handler) : Route :=
  mkRoute (name r) (param r) (methods r) ma (routes r) (handlers r) (parent r).
Definition set_routes (r : Route) (rs : gmap string nat) : Route :=
  mkRoute (name r) (param r) (methods r) (matchAny r) rs (handlers r) (parent r).
Definition set_handlers (r : Route) (hs : gmap string Handler) : Route :=
  mkRoute (name r) (param r) (methods r) (matchAny r) (routes r) hs (parent r).

(** The zero [Route]; it is also what a read through an index outside the
    store yields.  No index handed out by the router is ever outside the
    store (see [wf_reachable] below). *)
Definition zeroRoute : Route := mkRoute "" false ∅ ∅ ∅ ∅ None.

#[global] Instance Route_inhabited : Inhabited Route := populate zeroRoute.

(** [store] holds every [Route] object allocated so far, in allocation order;
    a [*Route] is an index into it. *)
Record Router : Type := mkRouter {
  store : list Route;
  base : nat;
  defaultHandlers : gmap string Handler;
  notFoundHandler : Handler
}.

Definition deref (R : Router) (p : nat) : Route := store R !!! p.

Definition with_store (R : Router) (s : list Route) : Router :=
  mkRouter s (base R) (defaultHandlers R) (notFoundHandler R).

(** Assignment through a pointer: the object at [p] becomes [f] of itself. *)
Definition modify (R : Router) (p : nat) (f : Route -> Route) : Router :=
  with_store R (<[p := f (deref R p)]> (store R)).

(** [&Route{...}]: a fresh object, placed after all existing ones. *)
Definition alloc (R : Router) (r : Route) : Router * nat :=
  (with_store R (store R ++ [r]), length (store R)).

(** [NewRouter()] *)
Definition NewRouter : Router :=
  mkRouter [mkRoute "" false ∅ ∅ ∅ ∅ None] 0%nat ∅ (Some WriteNotFound).

(** ** Registration *)

Inductive Result (A : Type) : Type :=
| Ok (R : Router) (v : A)
| Panic (R : Router) (msg : string)
| OutOfFuel.
Arguments Ok {A} R v.
Arguments Panic {A} R msg.
Arguments OutOfFuel {A}.

(** [Route.HandleAny] *)
Definition HandleAny (R : Router) (route : nat) (ms : Methods) (h : Handler)
  : Router :=
  modify R route (fun r => set_matchAny r (assign_all (matchAny r) ms h)).

(** [Route.MatchAny] *)
Definition MatchAny (R : Router) (route : nat) (ms : Methods) : Router :=
  HandleAny R route ms None.

(** The segment analysis in the middle of [getRoute]: from the text of the
    segment (already replaced by the marker when empty) and its original
    length [l], the key under which the child is stored and whether it is a
    parameter; [None] is the panic for a missing closing brace. *)
Definition classify (slug : string) (l : Z) : option (string * bool) :=
  if decide (byte_at slug 0 = Some "{"%char) then
    if decide (byte_at slug (l - 1) ≠ Some "}"%char) then None
    else Some (slice slug 1 (l - 1), true)
  else Some (slug, false).

(** The lookup-or-create step of [getRoute] (from [r, ok := route.routes[slug]]
    to the end of the [if]). *)
Definition child (R : Router) (route : nat) (slug : string) (prm : bool)
    (ms : Methods) : Router * nat :=
  match routes (deref R route) !! slug with
  | None =>
      let '(R1, r) := alloc R (mkRoute slug prm (CopyMethods ms) ∅ ∅ ∅ (Some route)) in
      (modify R1 route (fun x => set_routes x (<[slug := r]> (routes x))), r)
  | Some r =>
      (modify R r (fun x => set_methods x (CopyFrom (methods x) ms)), r)
  end.

(** [Route.getRoute]; the recursion is on the pattern, which gets shorter at
    every call, so [fuel] above its length is never used up (see
    [getRoute_segments] and [Handle_fuel_enough]). *)
Fixpoint getRoute_fuel (fuel : nat) (R : Router) (route : nat) (pattern : string)
    (ms : Methods) (h : Handler) : Result nat :=
  match fuel with
  | O => OutOfFuel
  | S fuel' =>
      if decide (pattern = "") then
        Ok (modify R route (fun r => set_handlers r (assign_all (handlers r) ms h)))
           route
      else
        let pattern :=
          if decide (byte_at pattern 0 = Some "/"%char) then slice_from pattern 1
          else pattern in
        let lp := len pattern in
        let l := nextSlug pattern in
        let l := if decide (l = -1) then lp else l in
        let slug := slice pattern 0 l in
        let slug := if decide (slug = "") then "/" else slug in
        match classify slug l with
        | None => Panic R ("missing closing brace in pattern: " +:+ pattern)
        | Some (slug, prm) =>
            let '(R1, r) := child R route slug prm ms in
            if decide (l = lp) then getRoute_fuel fuel' R1 r "" ms h
            else getRoute_fuel fuel' R1 r (slice_from pattern l) ms h
        end
  end.

Definition getRoute (R : Router) (route : nat) (pattern : string)
    (ms : Methods) (h : Handler) : Result nat :=
  getRoute_fuel (S (String.length pattern)) R route pattern ms h.

(** [Router.Handle]; the result is the returned [*Route], [None] for [nil]. *)
Definition Handle (R : Router) (pattern : string) (ms : Methods) (h : Handler)
  : Result (option nat) :=
  if decide (pattern = "") then Ok R None
  else if decide (pattern = "/") then
    let R1 := modify R (base R) (fun r => set_handlers r (assign_all (handlers r) ms h)) in
    let R2 := modify R1 (base R1) (fun r => set_methods r (CopyFrom (methods r) ms)) in
    Ok R2 (Some (base R2))
  else
    let pattern :=
      if decide (byte_at pattern 0 = Some "/"%char) then slice_from pattern 1
      else pattern in
    match getRoute R (base R) pattern ms h with
    | Ok R1 r => Ok R1 (Some r)
    | Panic R1 msg => Panic R1 msg
    | OutOfFuel => OutOfFuel
    end.

(** [Router.Default] *)
Definition Default (R : Router) (ms : Methods) (h : Handler) : Router :=
  mkRouter (store R) (base R) (assign_all (defaultHandlers R) ms h)
           (notFoundHandler R).

(** [Router.NotFound] *)
Definition NotFound (R : Router) (h : Handler) : Router :=
  let h := if decide (h = None) then Some WriteNotFound else h in
  mkRouter (store R) (base R) (defaultHandlers R) h.

(** ** Dispatch *)

(** [Route.getHandler] *)
Definition getHandler (R : Router) (route : nat) (method : string) : Handler :=
  let h := index_handler (handlers (deref R route)) method in
  if decide (h = None) then index_handler (handlers (deref R route)) MethodAll
  else h.

(** [Route.getMatchAnyHandler]; [ok] and [okAll] are the comma-ok results. *)
Definition getMatchAnyHandler (R : Router) (route : nat) (method : string)
  : Handler :=
  let h := index_handler (matchAny (deref R route)) method in
  let ok := bool_decide (is_Some (matchAny (deref R route) !! method)) in
  if ok && bool_decide (h ≠ None) then h
  else
    let h := index_handler (matchAny (deref R route)) MethodAll in
    let okAll := bool_decide (is_Some (matchAny (deref R route) !! MethodAll)) in
    if okAll && bool_decide (h ≠ None) then h
    else if negb ok && negb okAll then None
    else getHandler R route method.

(** The loop [for ; route != nil; route = route.parent] of
    [Route.getParentMatch].  The outer [option] is [None] when [fuel] runs
    out, which needs a cycle of [parent] links (see [parentLoop_chain]). *)
Fixpoint parentLoop (fuel : nat) (R : Router) (route : option nat)
    (method : string) : option Handler :=
  match route with
  | None => Some None
  | Some p =>
      match fuel with
      | O => None
      | S fuel' =>
          match getMatchAnyHandler R p method with
          | Some handler => Some (Some handler)
          | None => parentLoop fuel' R (parent (deref R p)) method
          end
      end
  end.

(** [Route.getParentMatch] *)
Definition getParentMatch (R : Router) (route : nat) (method : string)
  : option Handler :=
  let fuel := length (store R) in
  if decide (name (deref R route) ≠ "/") then
    match routes (deref R route) !! "/" with
    | Some r =>
        match getMatchAnyHandler R r method with
        | Some h => Some (Some h)
        | None => parentLoop fuel R (Some route) method
        end
    | None => parentLoop fuel R (Some route) method
    end
  else
    let route := parent (deref R route) in
    let route := match route with
                 | Some p => parent (deref R p)
                 | None => None
                 end in
    parentLoop fuel R route method.

(** [Router.getDefaultHandler] *)
Definition getDefaultHandler (R : Router) (method : string) : Handler :=
  let h := index_handler (defaultHandlers R) method in
  if decide (h = None) then index_handler (defaultHandlers R) MethodAll else h.

(** What a dispatch ends in: the handler that is invoked, the call site that
    invokes it, and the [Params] of the context it gets. *)
Inductive Outcome : Type :=
| Endpoint (h : HandlerImpl) (params : gmap string string)
| Fallback (h : HandlerImpl) (params : gmap string string)
| DefaultServed (h : HandlerImpl) (params : gmap string string)
| NotFoundServed (h : Handler) (params : gmap string string).

(** [Router.serveDefault] *)
Definition serveDefault (R : Router) (method : string) : Outcome :=
  match getDefaultHandler R method with
  | None => NotFoundServed (notFoundHandler R) ∅
  | Some handler => DefaultServed handler ∅
  end.

(** The order in which [range] visits a map is not specified by Go: any
    enumeration of the entries can occur. *)
Record RangeOrder : Type := mkRangeOrder {
  range_of : gmap string nat -> list (string * nat);
  range_of_perm : forall m, range_of m ≡ₚ map_to_list m
}.

Definition sortedRange : RangeOrder :=
  mkRangeOrder map_to_list (fun m => reflexivity (map_to_list m)).

(** The inner [for _, ro := range route.routes] of [ServeHTTP]: the first
    visited child that is a parameter and accepts the method. *)
Definition acceptsParam (R : Router) (method : string) (kv : string * nat)
  : bool :=
  param (deref R (snd kv)) && HasOrAll (methods (deref R (snd kv))) method.

Definition findParam (ord : RangeOrder) (R : Router) (route : nat)
    (method : string) : option nat :=
  snd <$> List.find (acceptsParam R method) (range_of ord (routes (deref R route))).

Inductive LoopExit : Type :=
| Fell (route : nat) (params : gmap string string)
| Returned (o : Outcome).

(** The head of the body of [pathLoop] in [Router.ServeHTTP]: the next
    segment (before the empty one is replaced by the marker) and what is left
    of [urlPath]. *)
Definition nextSegment (trailingSlash : bool) (urlPath : string)
  : string * string :=
  let l := nextSlug urlPath in
  if decide (l ≠ -1) then
    let slug := slice urlPath 0 l in
    let urlPath := slice_from urlPath (l + 1) in
    let urlPath :=
      if trailingSlash && bool_decide (l ≠ 0) && bool_decide (urlPath = "")
      then "/" else urlPath in
    (slug, urlPath)
  else (urlPath, "").

(** The [pathLoop] of [Router.ServeHTTP].  [urlPath] gets shorter at every
    iteration (see [pathLoop_resolves]). *)
Fixpoint pathLoop (fuel : nat) (ord : RangeOrder) (R : Router) (method : string)
    (trailingSlash : bool) (urlPath : string) (route : nat)
    (params : gmap string string) : option LoopExit :=
  if decide (urlPath = "") then Some (Fell route params)
  else
    match fuel with
    | O => None
    | S fuel' =>
        let '(slug, urlPath) := nextSegment trailingSlash urlPath in
        let slug := if decide (slug = "") then "/" else slug in
        match routes (deref R route) !! slug with
        | None =>
            match findParam ord R route method with
            | Some ro =>
                pathLoop fuel' ord R method trailingSlash urlPath ro
                         (<[name (deref R ro) := slug]> params)
            | None =>
                let route := if decide (slug = "/") then parent (deref R route)
                             else Some route in
                match route with
                | Some p =>
                    match getParentMatch R p method with
                    | None => None
                    | Some (Some handler) => Some (Returned (Fallback handler params))
                    | Some None => Some (Returned (serveDefault R method))
                    end
                | None => Some (Returned (serveDefault R method))
                end
            end
        | Some ro =>
            if negb (HasOrAll (methods (deref R ro)) method) then Some (Fell ro params)
            else
              let params := if param (deref R ro)
                            then <[name (deref R ro) := slug]> params
                            else params in
              pathLoop fuel' ord R method trailingSlash urlPath ro params
        end
    end.

(** [Router.ServeHTTP], as a function of the request's method and URL path.
    [None] only if one of the two loops ran out of fuel. *)
Definition ServeHTTP (ord : RangeOrder) (R : Router) (method path : string)
  : option Outcome :=
  let urlPath := path in
  let upl := len urlPath in
  let '(urlPath, upl) :=
    if bool_decide (upl ≠ 0) && bool_decide (byte_at urlPath 0 = Some "/"%char)
    then (slice_from urlPath 1, upl - 1) else (urlPath, upl) in
  let trailingSlash :=
    bool_decide (upl ≠ 0) && bool_decide (byte_at urlPath (upl - 1) = Some "/"%char) in
  match pathLoop (String.length urlPath) ord R method trailingSlash urlPath (base R) ∅ with
  | None => None
  | Some (Returned o) => Some o
  | Some (Fell route params) =>
      match getHandler R route method with
      | Some handler => Some (Endpoint handler params)
      | None =>
          match getParentMatch R route method with
          | None => None
          | Some (Some handler) => Some (Fallback handler params)
          | Some None => Some (serveDefault R method)
          end
      end
  end.

Local Close Scope Z_scope.

(** ** The router of the repository's test ([TestRouter]) *)

Module TestRouter.

(** A chain of registrations; a panic or [nil] route stops it. *)
Definition andThen (x : Result (option nat)) (f : Router -> nat -> Router)
  : Router :=
  match x with
  | Ok R (Some r) => f R r
  | Ok R None => R
  | Panic R _ => R
  | OutOfFuel => NewRouter
  end.

Definition GetFunc (R : Router) (pattern : string) (id : nat) :=
  Handle R pattern MethodsGet (Some (UserHandler id)).
Definition PostFunc (R : Router) (pattern : string) (id : nat) :=
  Handle R pattern MethodsPost (Some (UserHandler id)).
Definition keep (R : Router) (_ : nat) : Router := R.

(** Handler identities: 0 is the catch-all of [/] that answers with
    [handleAnyCode]; the others answer with the text written next to them. *)
Definition router : Router :=
  let R := andThen (GetFunc NewRouter "/" 1)                (* GET / *)
             (fun R r => HandleAny R r MethodsGet (Some (UserHandler 0))) in
  let R := andThen (PostFunc R "/" 2) keep in               (* POST / *)
  let R := andThen (GetFunc R "/slug1" 3) keep in
  let R := andThen (GetFunc R "/slug1/" 4) keep in
  let R := andThen (PostFunc R "/slug1" 5) keep in
  let R := andThen (GetFunc R "/slug1/slug1.1" 6) keep in
  let R := andThen (GetFunc R "/slug1/slug1.1/" 7) keep in
  let R := andThen (GetFunc R "/slug1//slug1.1" 8) keep in
  let R := andThen (GetFunc R "/slug2/{slug2.1}" 9) keep in
  let R := andThen (GetFunc R "/slug2/{slug2.1}/" 10) keep in
  let R := andThen (GetFunc R "/slug2/{slug2.1}/slug2.1.1" 11) keep in
  let R := andThen (GetFunc R "/fallback-slash" 12)
             (fun R r => MatchAny R r MethodsGet) in
  let R := andThen (GetFunc R "/fallback-slash/" 13)
             (fun R r => MatchAny R r MethodsGet) in
  let R := andThen (GetFunc R "/fallback-slash2/" 14)
             (fun R r => MatchAny R r MethodsGet) in
  let R := andThen (GetFunc R "/fallback-slash3" 15)
             (fun R r => MatchAny R r MethodsGet) in
  R.

Definition get (path : string) : option Outcome :=
  ServeHTTP sortedRange router "GET" path.

(** The handler a dispatch ends in, and the value it sees for the
    parameter of the test. *)
Definition servedBy (o : option Outcome) : option (Handler * option string) :=
  match o with
  | Some (Endpoint h ps) | Some (Fallback h ps) | Some (DefaultServed h ps) =>
      Some (Some h, ps !! "slug2.1")
  | Some (NotFoundServed h ps) => Some (h, ps !! "slug2.1")
  | None => None
  end.

End TestRouter.

(** ** Well-formed stores and reachable routers *)

(** The store is a tree: [parent] links point to older objects, the root has
    none, and every entry of a [routes] map leads to an object whose [parent]
    is the owner of the map and whose [name] is the key. *)
Record wf (R : Router) : Prop := mkWf {
  wf_base : base R < length (store R);
  wf_base_parent : parent (deref R (base R)) = None;
  wf_parent : forall p q, p < length (store R) ->
              parent (deref R p) = Some q -> q < p;
  wf_child : forall p k c, p < length (store R) ->
             routes (deref R p) !! k = Some c ->
             c < length (store R) /\ parent (deref R c) = Some p /\
             name (deref R c) = k
}.

(** The router a registration leaves behind, also when it panicked. *)
Definition state_after {A} (R : Router) (x : Result A) : Router :=
  match x with
  | Ok R' _ => R'
  | Panic R' _ => R'
  | OutOfFuel => R
  end.

(** The routers a program can build through the exported functions; the
    routes it can hold are those some [Handle] returned, that is, objects of
    the store. *)
Inductive reachable : Router -> Prop :=
| reach_NewRouter : reachable NewRouter
| reach_Handle R pattern ms h :
    reachable R -> reachable (state_after R (Handle R pattern ms h))
| reach_HandleAny R route ms h :
    reachable R -> route < length (store R) -> reachable (HandleAny R route ms h)
| reach_Default R ms h : reachable R -> reachable (Default R ms h)
| reach_NotFound R h : reachable R -> reachable (NotFound R h).

(** The invariant on method sets: below the root, a child allows no method
    that its parent does not allow. *)
Definition methods_nested (R : Router) : Prop :=
  forall p k c, p < length (store R) -> p ≠ base R ->
    routes (deref R p) !! k = Some c ->
    methods (deref R c) ⊆ methods (deref R p).

(** Two routers with the same tree: only method sets and handler tables may
    differ. *)
Definition same_shape (R R' : Router) : Prop :=
  base R' = base R /\ length (store R') = length (store R) /\
  forall q, name (deref R' q) = name (deref R q) /\
            parent (deref R' q) = parent (deref R q) /\
            routes (deref R' q) = routes (deref R q).


(** Every entry of a [routes] map of [R] is an entry of the same map in [S]. *)
Definition edges_in (R S : Router) : Prop :=
  forall p k c, routes (deref R p) !! k = Some c ->
                routes (deref S p) !! k = Some c.

(** [R'] is [R] with some method sets widened, and nothing else changed. *)
Definition methods_widened (R R' : Router) : Prop :=
  same_shape R R' /\
  defaultHandlers R' = defaultHandlers R /\
  notFoundHandler R' = notFoundHandler R /\
  forall q, param (deref R' q) = param (deref R q) /\
            handlers (deref R' q) = handlers (deref R q) /\
            matchAny (deref R' q) = matchAny (deref R q) /\
            methods (deref R q) ⊆ methods (deref R' q).

(** The part of the body of [getRoute] that only looks at the pattern (for a
    pattern that is not empty): the pattern without its leading slash, the
    key and kind of its first segment ([None] for the panic), and the pattern
    passed to the recursive call. *)
Definition firstSegment (pattern : string)
  : string * option (string * bool) * string :=
  let pattern :=
    if decide (byte_at pattern 0 = Some "/"%char) then slice_from pattern 1
    else pattern in
  let lp := len pattern in
  let l := nextSlug pattern in
  let l := if decide (l = (-1)%Z) then lp else l in
  let slug := slice pattern 0 l in
  let slug := if decide (slug = "") then "/" else slug in
  (pattern, classify slug l,
   if decide (l = lp) then "" else slice_from pattern l).

(** ** Patterns and paths as lists of segments *)

Fixpoint slash_free (s : string) : bool :=
  match s with
  | EmptyString => true
  | String c s' => negb (Ascii.eqb c "/") && slash_free s'
  end.

(** The segments of a string: the pieces between its slashes. *)
Fixpoint split_slash (s : string) : list string :=
  match s with
  | EmptyString => [EmptyString]
  | String c s' =>
      if Ascii.eqb c "/" then EmptyString :: split_slash s'
      else match split_slash s' with
           | t :: ts => String c t :: ts
           | [] => [String c EmptyString]
           end
  end.

(** What is left of a pattern after a segment: nothing, or a slash and the
    remaining segments. *)
Definition slash_then (ts : list string) : string :=
  foldr (fun t acc => "/" +:+ t +:+ acc) "" ts.

Definition join_slash (ts : list string) : string :=
  match ts with
  | [] => ""
  | t :: ts' => t +:+ slash_then ts'
  end.

(** [if pattern[0] == '/' { pattern = pattern[1:] }] *)
Definition stripSlash (s : string) : string :=
  if decide (byte_at s 0 = Some "/"%char) then slice_from s 1%Z else s.

(** The name under which a segment is looked up: the marker for the empty
    one. *)
Definition slugOf (t : string) : string := if decide (t = "") then "/" else t.

(** [getRoute] on a pattern already cut into segments. *)
Fixpoint registerSegments (R : Router) (route : nat) (ts : list string)
    (ms : Methods) (h : Handler) : Result nat :=
  match ts with
  | [] => Ok (modify R route (fun r => set_handlers r (assign_all (handlers r) ms h)))
             route
  | t :: ts' =>
      match classify (slugOf t) (len t) with
      | None => Panic R ("missing closing brace in pattern: " +:+ join_slash ts)
      | Some (k, prm) =>
          let '(R1, r) := child R route k prm ms in
          registerSegments R1 r ts' ms h
      end
  end.

(** The segments [Handle] registers for a pattern other than [""] and ["/"]:
    [Handle] and then [getRoute] each drop one leading slash. *)
Definition patternSegments (pattern : string) : list string :=
  split_slash (stripSlash (stripSlash pattern)).

(** A segment that starts with an opening brace but does not end with a
    closing one. *)
Definition malformed (seg : string) : Prop :=
  byte_at seg 0 = Some "{"%char /\
  byte_at seg (len seg - 1)%Z ≠ Some "}"%char.

(** The entries of a node's [routes] map that lead to parameter nodes. *)
Definition paramChildren (R : Router) (p : nat) : list (string * nat) :=
  List.filter (fun kv => param (deref R (snd kv))) (map_to_list (routes (deref R p))).

(** The routers used as concrete inputs below. *)
Module Scenario.

(** The router after a registration. *)
Definition reg (R : Router) (pattern : string) (ms : Methods) (h : Handler)
  : Router :=
  state_after R (Handle R pattern ms h).

(** [/a/{x}] and [/a/{y}], both for GET. *)
Definition twoParams : Router :=
  let R := reg NewRouter "/a/{x}" MethodsGet (Some (UserHandler 1)) in
  reg R "/a/{y}" MethodsGet (Some (UserHandler 2)).

(** [/a] for GET, with a wildcard catch-all handler and then
    [MatchAny] for GET. *)
Definition nilAndWildcard : Router :=
  let R := reg NewRouter "/a" MethodsGet (Some (UserHandler 1)) in
  let R := HandleAny R 1 MethodsAll (Some (UserHandler 2)) in
  MatchAny R 1 MethodsGet.

End Scenario.

(** No node has two parameter children that accept [method]: the order in
    which [range] visits the children then makes no difference. *)
Definition unambiguous (R : Router) (method : string) : bool :=
  forallb (fun r => Nat.leb (length (List.filter (acceptsParam R method)
                                       (map_to_list (routes r)))) 1)
          (store R).

(** ** Fallback resolution, as a list of nodes to consult *)

(** [p], its parent, its parent's parent, and so on. *)
Fixpoint ancestors (fuel : nat) (R : Router) (p : option nat) : list nat :=
  match p, fuel with
  | Some p, S fuel' => p :: ancestors fuel' R (parent (deref R p))
  | _, _ => []
  end.

(** The nodes whose catch-all entries [getParentMatch] consults, in order:
    for a node that is not a slash node, its slash child and then the node
    and its ancestors; for a slash node, the ancestors from its grandparent
    on. *)
Definition fallbackChain (R : Router) (route : nat) : list nat :=
  let n := length (store R) in
  if decide (name (deref R route) ≠ "/") then
    match routes (deref R route) !! "/" with
    | Some s => [s]
    | None => []
    end ++ ancestors n R (Some route)
  else
    ancestors n R (match parent (deref R route) with
                   | Some p => parent (deref R p)
                   | None => None
                   end).

(** The first catch-all handler found along a list of nodes. *)
Fixpoint firstFallback (R : Router) (chain : list nat) (method : string)
  : Handler :=
  match chain with
  | [] => None
  | p :: rest =>
      match getMatchAnyHandler R p method with
      | Some h => Some h
      | None => firstFallback R rest method
      end
  end.


(** Follows the spec's wording of ancestor fallback resolution, to compare
    with [getParentMatch]: walk upward through the parent links, the starting
    node included, and take the first catch-all found. *)
Definition inclusiveAncestorFallback (R : Router) (start : nat) (method : string)
  : Handler :=
  firstFallback R (ancestors (length (store R)) R (Some start)) method.

Module Scenario2.

Import Scenario.


(** [/a] for GET with handler [A], made a catch-all by [MatchAny]. *)
Definition plainOnly (A : HandlerImpl) : Router :=
  MatchAny (reg NewRouter "/a" MethodsGet (Some A)) 1 MethodsGet.

(** [/a/] for GET with handler [B], made a catch-all by [MatchAny]. *)
Definition slashOnly (B : HandlerImpl) : Router :=
  MatchAny (reg NewRouter "/a/" MethodsGet (Some B)) 2 MethodsGet.

(** Both of them: [/a] is node 1 and [/a/] is node 2. *)
Definition both (A B : HandlerImpl) : Router :=
  MatchAny (reg (plainOnly A) "/a/" MethodsGet (Some B)) 2 MethodsGet.

End Scenario2.

(** ** Patterns given by their segments, and the paths that match them *)














(** Below [p] the store holds the nodes of a pattern, and no node that could
    divert a request from them: a literal node is the child of the previous
    one under its key; a parameter node is the only child of the previous
    one; each has the kind of its segment and [ms] as methods, and the last
    one has [h] for every method of [ms]. *)
Fixpoint chain (R : Router) (p : nat) (keys : list (string * bool))
    (ms : Methods) (h : Handler) : Prop :=
  match keys with
  | [] => forall m, m ∈ ms -> handlers (deref R p) !! m = Some h
  | (k, prm) :: rest =>
      exists c, (if prm then routes (deref R p) = {[ k := c ]}
                 else routes (deref R p) !! k = Some c) /\
                name (deref R c) = k /\ param (deref R c) = prm /\
                methods (deref R c) = ms /\ chain R c rest ms h
  end.


Module Scenario3.

Import Scenario.


(** [/a//] alone, and [/a/{id}] alone, for GET. *)
Definition doubleSlash : Router :=
  reg NewRouter "/a//" MethodsGet (Some (UserHandler 1)).

Definition oneParam : Router :=
  reg NewRouter "/a/{id}" MethodsGet (Some (UserHandler 1)).


End Scenario3.

(** * Proofs *)

(** ** Maps, sets and the store *)

Lemma lookup_assign_all (m : gmap string Handler) ms h k :
  assign_all m ms h !! k = if decide (k ∈ ms) then Some h else m !! k.
Proof.
  assert ((k ∈ ms -> assign_all m ms h !! k = Some h) /\
          (k ∉ ms -> assign_all m ms h !! k = m !! k)) as [H1 H2].
  { unfold assign_all.
    apply (set_fold_ind_L
             (fun acc (X : Methods) =>
                (k ∈ X -> acc !! k = Some h) /\ (k ∉ X -> acc !! k = m !! k))).
    - split; [set_solver | done].
    - intros x X acc Hx [IH1 IH2]. destruct (decide (k = x)) as [->|Hne].
      + rewrite lookup_insert_eq. split; [done | set_solver].
      + rewrite lookup_insert_ne by done. split; intros; [apply IH1 | apply IH2]; set_solver. }
  case_decide; auto.
Qed.

Lemma CopyFrom_union (m ms : Methods) : CopyFrom m ms = m ∪ ms.
Proof.
  unfold CopyFrom.
  apply (set_fold_ind_L (fun acc (X : Methods) => acc = m ∪ X)); [set_solver |].
  intros x X acc Hx ->. unfold Set_. set_solver.
Qed.

Lemma CopyMethods_id (ms : Methods) : CopyMethods ms = ms.
Proof. unfold CopyMethods, CloneMethods. rewrite CopyFrom_union. set_solver. Qed.

Lemma NewMethods_list (l : list string) : NewMethods l = list_to_set l.
Proof.
  unfold NewMethods.
  assert (forall acc : Methods, foldl Set_ acc l = list_to_set l ∪ acc) as H.
  { induction l as [|x l IH]; intros acc; simpl; [set_solver |].
    rewrite IH. unfold Set_. set_solver. }
  rewrite H. set_solver.
Qed.

Lemma deref_lookup R p r : store R !! p = Some r -> deref R p = r.
Proof. intros H. unfold deref. by apply list_lookup_total_correct. Qed.

Lemma lookup_deref R p : p < length (store R) -> store R !! p = Some (deref R p).
Proof. intros H. unfold deref. by apply list_lookup_lookup_total_lt. Qed.

Lemma length_modify R p f : length (store (modify R p f)) = length (store R).
Proof. unfold modify; simpl. apply length_insert. Qed.

Lemma deref_modify_eq R p f :
  p < length (store R) -> deref (modify R p f) p = f (deref R p).
Proof. intros H. unfold deref, modify; simpl. by rewrite list_lookup_total_insert_eq. Qed.

Lemma deref_modify_ne R p q f : p ≠ q -> deref (modify R p f) q = deref R q.
Proof. intros H. unfold deref, modify; simpl. by rewrite list_lookup_total_insert_ne. Qed.

Lemma deref_modify R p q f :
  deref (modify R p f) q =
  if decide (p = q /\ p < length (store R)) then f (deref R p) else deref R q.
Proof.
  case_decide as H.
  - destruct H as [-> H]. by apply deref_modify_eq.
  - destruct (decide (p = q)) as [->|Hne]; [| by apply deref_modify_ne].
    unfold deref, modify; simpl. rewrite list_insert_ge; [done | lia].
Qed.

Lemma base_modify R p f : base (modify R p f) = base R.
Proof. done. Qed.

Lemma deref_alloc_old R r p :
  p < length (store R) -> deref (with_store R (store R ++ [r])) p = deref R p.
Proof. intros H. unfold deref; simpl. by rewrite lookup_total_app_l. Qed.

Lemma deref_alloc_new R r : deref (with_store R (store R ++ [r])) (length (store R)) = r.
Proof.
  unfold deref; simpl. rewrite lookup_total_app_r by lia.
  by rewrite Nat.sub_diag.
Qed.

(** ** Well-formedness is kept by every operation *)

Lemma wf_NewRouter : wf NewRouter.
Proof.
  split; simpl.
  - lia.
  - done.
  - intros p q Hp. destruct p; [done | simpl in Hp; lia].
  - intros p k c Hp. destruct p; [done | simpl in Hp; lia].
Qed.

Lemma same_shape_refl R : same_shape R R.
Proof. by repeat split. Qed.

Lemma same_shape_trans R1 R2 R3 :
  same_shape R1 R2 -> same_shape R2 R3 -> same_shape R1 R3.
Proof.
  intros (Hb & Hl & H) (Hb' & Hl' & H'). repeat split; try congruence;
    destruct (H q) as (E1 & E2 & E3), (H' q) as (E1' & E2' & E3'); congruence.
Qed.

Lemma wf_same_shape R R' : same_shape R R' -> wf R -> wf R'.
Proof.
  intros (Hb & Hl & H) [W1 W2 W3 W4]. split.
  - congruence.
  - rewrite Hb. destruct (H (base R)) as (_ & -> & _). done.
  - intros p q Hp Hq. destruct (H p) as (_ & Hpar & _).
    rewrite Hpar in Hq. apply W3; [lia | done].
  - intros p k c Hp Hc. destruct (H p) as (_ & _ & Hr). rewrite Hr in Hc.
    destruct (W4 p k c) as (? & ? & ?); [lia | done |].
    destruct (H c) as (-> & -> & _). repeat split; [lia | done | done].
Qed.

Lemma same_shape_modify R p f :
  (forall r, name (f r) = name r /\ parent (f r) = parent r /\
             routes (f r) = routes r) ->
  same_shape R (modify R p f).
Proof.
  intros Hf. repeat split; try apply length_modify;
    rewrite deref_modify; case_decide as H; try done;
    destruct H as [-> _]; apply Hf.
Qed.

Lemma same_shape_set_handlers R p g :
  same_shape R (modify R p (fun r => set_handlers r (g r))).
Proof. by apply same_shape_modify. Qed.

Lemma same_shape_set_methods R p g :
  same_shape R (modify R p (fun r => set_methods r (g r))).
Proof. by apply same_shape_modify. Qed.

Lemma same_shape_set_matchAny R p g :
  same_shape R (modify R p (fun r => set_matchAny r (g r))).
Proof. by apply same_shape_modify. Qed.

(** What the lookup-or-create step does to the store. *)
Lemma child_found R route slug prm ms c :
  routes (deref R route) !! slug = Some c ->
  child R route slug prm ms =
  (modify R c (fun x => set_methods x (CopyFrom (methods x) ms)), c).
Proof. intros H. unfold child. by rewrite H. Qed.

Lemma child_fresh R route slug prm ms :
  routes (deref R route) !! slug = None ->
  child R route slug prm ms =
  (modify (with_store R (store R ++ [mkRoute slug prm (CopyMethods ms) ∅ ∅ ∅ (Some route)]))
          route (fun x => set_routes x (<[slug := length (store R)]> (routes x))),
   length (store R)).
Proof. intros H. unfold child. by rewrite H. Qed.

Lemma length_alloc R r : length (store (with_store R (store R ++ [r]))) = S (length (store R)).
Proof. simpl. rewrite length_app; simpl; lia. Qed.

Lemma deref_child_fresh R route new slug q :
  route < length (store R) ->
  deref (modify (with_store R (store R ++ [new])) route
           (fun x => set_routes x (<[slug := length (store R)]> (routes x)))) q =
  if decide (q = route)
  then set_routes (deref R route) (<[slug := length (store R)]> (routes (deref R route)))
  else if decide (q = length (store R)) then new else deref R q.
Proof.
  intros Hroute. rewrite deref_modify. rewrite length_alloc.
  destruct (decide (q = route)) as [->|Hq].
  - rewrite decide_True by (split; [done | lia]).
    by rewrite deref_alloc_old.
  - rewrite decide_False by (intros [? _]; done).
    case_decide as Hn; [subst q; apply deref_alloc_new |].
    destruct (decide (q < length (store R))) as [Hlt|Hge]; [by apply deref_alloc_old |].
    unfold deref; simpl.
    rewrite !list_lookup_total_alt, !lookup_ge_None_2; [done | lia |].
    rewrite length_app; simpl; lia.
Qed.

Lemma wf_child_step R route slug prm ms R1 r :
  wf R -> route < length (store R) ->
  child R route slug prm ms = (R1, r) ->
  wf R1 /\ base R1 = base R /\ r < length (store R1) /\
  length (store R) <= length (store R1).
Proof.
  intros W Hroute Hch. destruct (routes (deref R route) !! slug) as [c|] eqn:E.
  - rewrite (child_found _ _ _ _ _ _ E) in Hch. injection Hch as <- <-.
    destruct (wf_child R W route slug c Hroute E) as (Hc & _).
    split; [| rewrite length_modify; done].
    eapply wf_same_shape; [apply same_shape_set_methods | done].
  - rewrite (child_fresh _ _ _ _ _ E) in Hch. injection Hch as <- <-.
    set (new := mkRoute slug prm (CopyMethods ms) ∅ ∅ ∅ (Some route)).
    set (n := length (store R)).
    pose proof (fun q => deref_child_fresh R route new slug q Hroute) as Hd.
    fold n in Hd.
    rewrite length_modify, length_alloc. fold n.
    split; [| split; [done | lia]].
    destruct W as [W1 W2 W3 W4].
    split; rewrite ?length_modify, ?length_alloc; fold n.
    + rewrite base_modify. simpl. lia.
    + rewrite base_modify; simpl. rewrite Hd.
      case_decide as H1; [simpl; rewrite <- H1; done |].
      case_decide as H2; [fold n in W1; lia | done].
    + intros p q Hp. rewrite Hd.
      case_decide as H1; [subst p; simpl; apply W3; done |].
      case_decide as H2; [subst p; simpl; intros [= <-]; done |].
      apply W3. lia.
    + intros p k c Hp. rewrite Hd.
      case_decide as H1.
      * subst p. simpl. destruct (decide (k = slug)) as [->|Hk].
        -- rewrite lookup_insert_eq. intros [= <-]. rewrite Hd.
           rewrite decide_False by (fold n in Hroute; lia).
           rewrite decide_True by done. simpl. split; [lia | done].
        -- rewrite lookup_insert_ne by done. intros Hc.
           destruct (W4 route k c Hroute Hc) as (Hc1 & Hc2 & Hc3).
           rewrite Hd. case_decide as H3.
           { subst c. apply W3 in Hc2; [lia | done]. }
           fold n in Hc1. rewrite decide_False by lia. split; [lia | done].
      * case_decide as H2; [subst p; simpl; rewrite lookup_empty; done |].
        intros Hc. destruct (W4 p k c) as (Hc1 & Hc2 & Hc3); [lia | done |].
        fold n in Hc1. rewrite Hd. case_decide as H3.
        { subst c. split; [lia |]. simpl. done. }
        rewrite decide_False by lia. split; [lia | done].
Qed.

(** ** Invariants along [getRoute] *)

(** Any property of the router and the current route that the
    lookup-or-create step keeps holds when [getRoute] stops, whether it
    returns (just before the handlers are recorded) or panics. *)
Lemma getRoute_fuel_inv (I : Router -> nat -> Prop) ms h :
  (forall R route slug prm R1 r,
      I R route -> child R route slug prm ms = (R1, r) -> I R1 r) ->
  forall fuel R route pattern, I R route ->
    match getRoute_fuel fuel R route pattern ms h with
    | Ok R' r =>
        exists R0, I R0 r /\
          R' = modify R0 r (fun x => set_handlers x (assign_all (handlers x) ms h))
    | Panic R' _ => exists r, I R' r
    | OutOfFuel => True
    end.
Proof.
  intros Hstep. induction fuel as [|fuel IH]; intros R route pattern HI; simpl; [done |].
  case_decide as Hp; [by exists R |].
  match goal with |- context [classify ?s ?l] => destruct (classify s l) as [[k prm]|] end;
    [| by exists route].
  destruct (child R route k prm ms) as [R1 r] eqn:Hch.
  specialize (Hstep _ _ _ _ _ _ HI Hch).
  case_decide; by apply IH.
Qed.

Lemma wf_modify_handlers R p g :
  wf R -> wf (modify R p (fun r => set_handlers r (g r))).
Proof. apply wf_same_shape, same_shape_set_handlers. Qed.

Lemma wf_modify_methods R p g :
  wf R -> wf (modify R p (fun r => set_methods r (g r))).
Proof. apply wf_same_shape, same_shape_set_methods. Qed.

Lemma wf_modify_matchAny R p g :
  wf R -> wf (modify R p (fun r => set_matchAny r (g r))).
Proof. apply wf_same_shape, same_shape_set_matchAny. Qed.

Lemma getRoute_fuel_wf fuel R route pattern ms h :
  wf R -> route < length (store R) ->
  wf (state_after R (getRoute_fuel fuel R route pattern ms h)) /\
  forall R' r, getRoute_fuel fuel R route pattern ms h = Ok R' r ->
               r < length (store R').
Proof.
  intros W Hr.
  pose proof (getRoute_fuel_inv (fun R route => wf R /\ route < length (store R)) ms h) as H.
  specialize (H ltac:(intros ?????? [??] ?; edestruct wf_child_step as (?&?&?&?); eauto)
                fuel R route pattern (conj W Hr)).
  destruct (getRoute_fuel fuel R route pattern ms h) as [R' r|R' msg|]; simpl.
  - destruct H as (R0 & [W0 Hr0] & ->). split; [by apply wf_modify_handlers |].
    intros ?? [= <- <-]. by rewrite length_modify.
  - destruct H as (r & W' & _). done.
  - done.
Qed.

Lemma Handle_wf R pattern ms h :
  wf R -> wf (state_after R (Handle R pattern ms h)).
Proof.
  intros W. unfold Handle.
  case_decide as H1; [done |]. case_decide as H2; simpl.
  { by apply wf_modify_methods, wf_modify_handlers. }
  match goal with |- context [getRoute R (base R) ?p ms h] =>
    pose proof (getRoute_fuel_wf (S (String.length p)) R (base R) p ms h W (wf_base R W)) as [H _];
    unfold getRoute; destruct (getRoute_fuel (S (String.length p)) R (base R) p ms h)
  end; done.
Qed.

Lemma wf_reachable R : reachable R -> wf R.
Proof.
  induction 1 as [|R pattern ms h _ IH|R route ms h _ IH Hr|R ms h _ IH|R h _ IH].
  - apply wf_NewRouter.
  - by apply Handle_wf.
  - by apply wf_modify_matchAny.
  - destruct IH; by split.
  - destruct IH; by split.
Qed.

(** ** Nesting of the method sets *)

Lemma methods_nested_same R R' :
  base R' = base R -> length (store R') = length (store R) ->
  (forall q, routes (deref R' q) = routes (deref R q) /\
             methods (deref R' q) = methods (deref R q)) ->
  methods_nested R -> methods_nested R'.
Proof.
  intros Hb Hl H N p k c Hp Hne Hc.
  destruct (H p) as [Hr ->], (H c) as [_ ->]. rewrite Hr in Hc.
  apply (N p k c); [lia | congruence | done].
Qed.

Lemma methods_nested_modify_handlers R p g :
  methods_nested R -> methods_nested (modify R p (fun r => set_handlers r (g r))).
Proof.
  apply methods_nested_same; [done | apply length_modify |].
  intros q. rewrite deref_modify. case_decide as H; [destruct H as [-> _] |]; done.
Qed.

Lemma methods_nested_modify_matchAny R p g :
  methods_nested R -> methods_nested (modify R p (fun r => set_matchAny r (g r))).
Proof.
  apply methods_nested_same; [done | apply length_modify |].
  intros q. rewrite deref_modify. case_decide as H; [destruct H as [-> _] |]; done.
Qed.

Lemma methods_nested_child_step R route slug prm ms R1 r :
  wf R -> route < length (store R) -> methods_nested R ->
  route = base R \/ ms ⊆ methods (deref R route) ->
  child R route slug prm ms = (R1, r) ->
  methods_nested R1 /\ ms ⊆ methods (deref R1 r).
Proof.
  intros W Hroute N Hon Hch.
  destruct (routes (deref R route) !! slug) as [c|] eqn:E.
  - rewrite (child_found _ _ _ _ _ _ E) in Hch. injection Hch as <- <-.
    destruct (wf_child R W route slug c Hroute E) as (Hc & Hpar & _).
    assert (route < c) as Hlt by (by apply (wf_parent R W c route)).
    assert (Hd : forall q, deref (modify R c (fun x => set_methods x (CopyFrom (methods x) ms))) q =
                 if decide (q = c) then set_methods (deref R c) (methods (deref R c) ∪ ms)
                 else deref R q).
    { intros q. rewrite deref_modify. rewrite <- CopyFrom_union.
      destruct (decide (q = c)) as [->|?].
      - by rewrite decide_True.
      - rewrite decide_False; [done | intros [? _]; done]. }
    split; [| rewrite Hd, decide_True by done; simpl; set_solver].
    intros p k c' Hp Hne. rewrite length_modify in Hp. rewrite base_modify in Hne.
    rewrite !Hd. destruct (decide (p = c)) as [->|Hpc].
    + simpl. intros Hc'.
      destruct (wf_child R W c k c' Hc Hc') as (? & Hpar' & _).
      assert (c < c') by (by apply (wf_parent R W c' c)).
      rewrite decide_False by lia.
      specialize (N c k c' Hc Hne Hc'). set_solver.
    + intros Hc'. specialize (N p k c' Hp Hne Hc').
      case_decide as Hcc; [| done]. subst c'. simpl.
      destruct (wf_child R W p k c Hp Hc') as (_ & Hpar' & _).
      assert (p = route) as -> by congruence.
      destruct Hon as [?|Hon]; [done |]. set_solver.
  - rewrite (child_fresh _ _ _ _ _ E) in Hch. injection Hch as <- <-.
    set (new := mkRoute slug prm (CopyMethods ms) ∅ ∅ ∅ (Some route)).
    pose proof (fun q => deref_child_fresh R route new slug q Hroute) as Hd.
    split; [| rewrite Hd, decide_False, decide_True by lia; simpl;
              rewrite CopyMethods_id; done].
    intros p k c' Hp Hne. rewrite length_modify, length_alloc in Hp.
    rewrite base_modify in Hne. simpl in Hne.
    rewrite (Hd p). destruct (decide (p = route)) as [->|Hpr].
    + simpl. destruct (decide (k = slug)) as [->|Hk].
      * rewrite lookup_insert_eq. intros [= <-].
        rewrite Hd, decide_False, decide_True by lia. simpl.
        rewrite CopyMethods_id. destruct Hon; done.
      * rewrite lookup_insert_ne by done. intros Hc'.
        destruct (wf_child R W route k c' Hroute Hc') as (? & Hpar' & _).
        assert (route < c') by (by apply (wf_parent R W c' route)).
        rewrite Hd, !decide_False by lia. by apply (N route k c').
    + case_decide as Hn; [simpl; by rewrite lookup_empty |].
      intros Hc'. assert (p < length (store R)) as Hp' by lia.
      destruct (wf_child R W p k c' Hp' Hc') as (? & Hpar' & _).
      rewrite Hd. case_decide as H1; [subst c'; simpl; by apply (N p k route) |].
      rewrite decide_False by lia. by apply (N p k c').
Qed.

Lemma getRoute_fuel_methods_nested fuel R route pattern ms h :
  wf R -> route < length (store R) -> methods_nested R ->
  route = base R \/ ms ⊆ methods (deref R route) ->
  methods_nested (state_after R (getRoute_fuel fuel R route pattern ms h)).
Proof.
  intros W Hr N Hon.
  pose proof (getRoute_fuel_inv
    (fun R route => wf R /\ route < length (store R) /\ methods_nested R /\
                    (route = base R \/ ms ⊆ methods (deref R route))) ms h) as H.
  assert (forall R route slug prm R1 r,
    wf R /\ route < length (store R) /\ methods_nested R /\
      (route = base R \/ ms ⊆ methods (deref R route)) ->
    child R route slug prm ms = (R1, r) ->
    wf R1 /\ r < length (store R1) /\ methods_nested R1 /\
      (r = base R1 \/ ms ⊆ methods (deref R1 r))) as Hstep.
  { intros R0 route0 slug prm R1 r (W0 & Hr0 & N0 & Hon0) Hch.
    destruct (wf_child_step _ _ _ _ _ _ _ W0 Hr0 Hch) as (? & ? & ? & ?).
    destruct (methods_nested_child_step _ _ _ _ _ _ _ W0 Hr0 N0 Hon0 Hch) as (? & ?).
    auto. }
  specialize (H Hstep fuel R route pattern (conj W (conj Hr (conj N Hon)))).
  destruct (getRoute_fuel fuel R route pattern ms h) as [R' r|R' msg|]; simpl.
  - destruct H as (R0 & (_ & _ & N0 & _) & ->). by apply methods_nested_modify_handlers.
  - destruct H as (r & _ & _ & N' & _). done.
  - done.
Qed.

Lemma methods_nested_NewRouter : methods_nested NewRouter.
Proof. intros p k c Hp Hne. destruct p; [done | simpl in Hp; lia]. Qed.

Lemma Handle_methods_nested R pattern ms h :
  wf R -> methods_nested R ->
  methods_nested (state_after R (Handle R pattern ms h)).
Proof.
  intros W N. unfold Handle.
  case_decide as H1; [done |]. case_decide as H2; simpl.
  - intros p k c Hp Hne. rewrite !length_modify in Hp. simpl in Hne.
    rewrite !deref_modify, !length_modify.
    rewrite !(decide_False (P := base R = p /\ _)) by (intros [? _]; done).
    intros Hc. destruct (wf_child R W p k c Hp Hc) as (Hc1 & Hpar & _).
    assert (base R ≠ c) as Hbc.
    { intros <-. rewrite (wf_base_parent R W) in Hpar. done. }
    rewrite !(decide_False (P := base R = c /\ _)) by (intros [? _]; done).
    by apply (N p k c).
  - match goal with |- context [getRoute R (base R) ?p ms h] =>
      pose proof (getRoute_fuel_methods_nested (S (String.length p)) R (base R) p ms h
                    W (wf_base R W) N (or_introl eq_refl)) as H;
      unfold getRoute; destruct (getRoute_fuel (S (String.length p)) R (base R) p ms h)
    end; done.
Qed.

Lemma methods_nested_reachable R : reachable R -> methods_nested R.
Proof.
  induction 1 as [|R pattern ms h HR IH|R route ms h _ IH Hr|R ms h _ IH|R h _ IH].
  - apply methods_nested_NewRouter.
  - apply Handle_methods_nested; [by apply wf_reachable | done].
  - by apply methods_nested_modify_matchAny.
  - done.
  - done.
Qed.

(** The lookup-or-create step only ever adds methods, and never touches the
    method set of the root. *)
Lemma child_step_methods R route slug prm ms R1 r :
  wf R -> route < length (store R) ->
  child R route slug prm ms = (R1, r) ->
  r ≠ base R /\
  forall q, q < length (store R) ->
    methods (deref R1 q) =
    if decide (q = r) then methods (deref R q) ∪ ms else methods (deref R q).
Proof.
  intros W Hroute Hch.
  destruct (routes (deref R route) !! slug) as [c|] eqn:E.
  - rewrite (child_found _ _ _ _ _ _ E) in Hch. injection Hch as <- <-.
    destruct (wf_child R W route slug c Hroute E) as (Hc & Hpar & _).
    split.
    { intros ->. rewrite (wf_base_parent R W) in Hpar. done. }
    intros q Hq. rewrite deref_modify. destruct (decide (q = c)) as [->|Hne].
    + rewrite decide_True by done. simpl. apply CopyFrom_union.
    + rewrite decide_False; [done | intros [? _]; done].
  - rewrite (child_fresh _ _ _ _ _ E) in Hch. injection Hch as <- <-.
    pose proof (wf_base R W). split; [lia |].
    intros q Hq. rewrite deref_child_fresh by done.
    rewrite (decide_False (P := q = length (store R))) by lia.
    rewrite (decide_False (P := q = length (store R))) by lia.
    case_decide; [subst q |]; done.
Qed.

Lemma getRoute_fuel_methods_grow fuel R route pattern ms h :
  wf R -> route < length (store R) ->
  let R' := state_after R (getRoute_fuel fuel R route pattern ms h) in
  methods (deref R' (base R)) = methods (deref R (base R)) /\
  forall q, q < length (store R) -> methods (deref R q) ⊆ methods (deref R' q).
Proof.
  intros W Hr.
  set (I := fun (R' : Router) (route : nat) =>
              wf R' /\ route < length (store R') /\ base R' = base R /\
              length (store R) <= length (store R') /\
              methods (deref R' (base R)) = methods (deref R (base R)) /\
              forall q, q < length (store R) -> methods (deref R q) ⊆ methods (deref R' q)).
  assert (forall R0 route0 slug prm R1 r,
             I R0 route0 -> child R0 route0 slug prm ms = (R1, r) -> I R1 r) as Hstep.
  { intros R0 route0 slug prm R1 r (W0 & Hr0 & Hb & Hl & Hroot & Hmon) Hch.
    destruct (wf_child_step _ _ _ _ _ _ _ W0 Hr0 Hch) as (? & ? & ? & ?).
    destruct (child_step_methods _ _ _ _ _ _ _ W0 Hr0 Hch) as (Hrb & Hm).
    pose proof (wf_base R W) as Hbase.
    split; [done |]. split; [done |]. split; [congruence |]. split; [lia |].
    split.
    - rewrite Hm by lia. rewrite decide_False by congruence. done.
    - intros q Hq. rewrite Hm by lia. specialize (Hmon q Hq).
      case_decide; set_solver. }
  pose proof (getRoute_fuel_inv I ms h Hstep fuel R route pattern) as H.
  assert (I R route) as HI.
  { unfold I. split; [done |]. split; [done |]. split; [done |]. split; [lia |]. split; done. }
  specialize (H HI).
  destruct (getRoute_fuel fuel R route pattern ms h) as [R1 r|R1 msg|]; simpl.
  - destruct H as (R0 & (_ & _ & _ & _ & Hroot & Hmon) & ->).
    assert (forall q, methods (deref (modify R0 r (fun x => set_handlers x (assign_all (handlers x) ms h))) q)
                      = methods (deref R0 q)) as E.
    { intros q. rewrite deref_modify. case_decide as Hq; [destruct Hq as [-> _] |]; done. }
    split; [by rewrite E |]. intros q Hq. rewrite E. by apply Hmon.
  - destruct H as (r & _ & _ & _ & _ & Hroot & Hmon). done.
  - done.
Qed.

Lemma Handle_methods_grow R pattern ms h :
  wf R ->
  let R' := state_after R (Handle R pattern ms h) in
  (forall q, q < length (store R) -> methods (deref R q) ⊆ methods (deref R' q)) /\
  methods (deref R' (base R)) =
    if decide (pattern = "/") then methods (deref R (base R)) ∪ ms
    else methods (deref R (base R)).
Proof.
  intros W. unfold Handle.
  case_decide as H1; [subst; split; [done | by rewrite decide_False] |].
  case_decide as H2; simpl.
  - pose proof (wf_base R W) as Hb.
    assert (forall q, methods (deref
       (modify (modify R (base R) (fun r => set_handlers r (assign_all (handlers r) ms h)))
               (base R) (fun r => set_methods r (CopyFrom (methods r) ms))) q) =
       if decide (q = base R) then methods (deref R (base R)) ∪ ms
       else methods (deref R q)) as E.
    { intros q. rewrite !deref_modify, !length_modify.
      destruct (decide (q = base R)) as [->|Hq].
      - rewrite !decide_True by done. simpl. apply CopyFrom_union.
      - rewrite !decide_False; [done | |]; intros [? _]; done. }
    split; [| by rewrite E, decide_True].
    intros q Hq. rewrite E. case_decide; [subst q |]; set_solver.
  - match goal with |- context [getRoute R (base R) ?p ms h] =>
      pose proof (getRoute_fuel_methods_grow (S (String.length p)) R (base R) p ms h
                    W (wf_base R W)) as [Hroot Hmon];
      unfold getRoute; destruct (getRoute_fuel (S (String.length p)) R (base R) p ms h)
    end; simpl in *; done.
Qed.

(** C10: every registration keeps the invariant that, below the root, a
    child's allowed methods are among its parent's: it holds in every router
    built with the exported functions; a registration removes no method from
    any node, and changes the root's method set only when the pattern is
    [/] itself, by adding the registered methods. *)
Theorem registration_keeps_methods_nested R pattern ms h :
  reachable R ->
  let R' := state_after R (Handle R pattern ms h) in
  methods_nested R /\ methods_nested R' /\
  (forall q, q < length (store R) -> methods (deref R q) ⊆ methods (deref R' q)) /\
  methods (deref R' (base R)) =
    if decide (pattern = "/") then methods (deref R (base R)) ∪ ms
    else methods (deref R (base R)).
Proof.
  intros HR R'. pose proof (wf_reachable R HR) as W.
  split; [by apply methods_nested_reachable |].
  split; [apply methods_nested_reachable; by constructor |].
  by apply Handle_methods_grow.
Qed.

Lemma registration_keeps_methods_nested_witness :
  let R := state_after NewRouter (Handle NewRouter "/a" MethodsGet None) in
  let R' := state_after R (Handle R "/a/b" MethodsPost None) in
  methods_nested R' /\ methods (deref R' 1) = {[ "GET"; "POST" ]} /\
  methods (deref R' 2) = {[ "POST" ]} /\ methods (deref R' 0) = ∅.
Proof.
  intros R R'.
  destruct (registration_keeps_methods_nested R "/a/b" MethodsPost None)
    as (_ & H & _ & _).
  { unfold R. apply reach_Handle, reach_NewRouter. }
  split; [exact H |]. vm_compute. done.
Defined.

(** ** Registering a pattern again *)

Lemma edges_in_refl R : edges_in R R.
Proof. by intros p k c. Qed.

Lemma edges_in_trans R1 R2 R3 : edges_in R1 R2 -> edges_in R2 R3 -> edges_in R1 R3.
Proof. intros H1 H2 p k c H. by apply H2, H1. Qed.

Lemma edges_in_same_shape R R' : same_shape R R' -> edges_in R R'.
Proof. intros (_ & _ & H) p k c Hc. destruct (H p) as (_ & _ & ->). done. Qed.

Lemma child_step_edges R route slug prm ms R1 r :
  wf R -> route < length (store R) ->
  child R route slug prm ms = (R1, r) ->
  edges_in R R1 /\ routes (deref R1 route) !! slug = Some r.
Proof.
  intros W Hroute Hch.
  destruct (routes (deref R route) !! slug) as [c|] eqn:E.
  - rewrite (child_found _ _ _ _ _ _ E) in Hch. injection Hch as <- <-.
    pose proof (same_shape_set_methods R c (fun x => CopyFrom (methods x) ms)) as Hs.
    split; [by apply edges_in_same_shape |].
    destruct Hs as (_ & _ & Hs). destruct (Hs route) as (_ & _ & ->). done.
  - rewrite (child_fresh _ _ _ _ _ E) in Hch. injection Hch as <- <-.
    split.
    + intros p k c. rewrite deref_child_fresh by done.
      case_decide as H1; [subst p; simpl |].
      * intros Hc. rewrite lookup_insert_ne; [done | congruence].
      * case_decide as H2; [| done]. subst p. unfold deref.
        rewrite list_lookup_total_alt, lookup_ge_None_2 by lia. simpl.
        by rewrite lookup_empty.
    + rewrite deref_child_fresh, decide_True by done. simpl.
      by rewrite lookup_insert_eq.
Qed.

Lemma getRoute_fuel_edges fuel R route pattern ms h R1 r1 :
  wf R -> route < length (store R) ->
  getRoute_fuel fuel R route pattern ms h = Ok R1 r1 ->
  edges_in R R1.
Proof.
  intros W Hr Hget.
  set (I := fun (R' : Router) (route : nat) =>
              wf R' /\ route < length (store R') /\ edges_in R R').
  assert (forall R0 route0 slug prm R' r,
             I R0 route0 -> child R0 route0 slug prm ms = (R', r) -> I R' r) as Hstep.
  { intros R0 route0 slug prm R' r (W0 & Hr0 & He) Hch.
    destruct (wf_child_step _ _ _ _ _ _ _ W0 Hr0 Hch) as (? & ? & ? & ?).
    destruct (child_step_edges _ _ _ _ _ _ _ W0 Hr0 Hch) as (? & ?).
    split; [done |]. split; [done |]. by eapply edges_in_trans. }
  pose proof (getRoute_fuel_inv I ms h Hstep fuel R route pattern) as H.
  assert (I R route) as HI by (split; [done |]; split; [done | apply edges_in_refl]).
  specialize (H HI). rewrite Hget in H.
  destruct H as (R0 & (_ & _ & He) & ->).
  eapply edges_in_trans; [exact He |].
  apply edges_in_same_shape, same_shape_set_handlers.
Qed.

Lemma methods_widened_refl R : methods_widened R R.
Proof. split; [apply same_shape_refl |]. by repeat split. Qed.

Lemma methods_widened_trans R1 R2 R3 :
  methods_widened R1 R2 -> methods_widened R2 R3 -> methods_widened R1 R3.
Proof.
  intros (Hs & Hd & Hn & H) (Hs' & Hd' & Hn' & H').
  split; [by eapply same_shape_trans |].
  split; [congruence |]. split; [congruence |].
  intros q. destruct (H q) as (E1 & E2 & E3 & E4), (H' q) as (E1' & E2' & E3' & E4').
  repeat split; try congruence. set_solver.
Qed.

Lemma methods_widened_modify R c ms :
  methods_widened R (modify R c (fun x => set_methods x (CopyFrom (methods x) ms))).
Proof.
  split; [apply same_shape_set_methods |]. split; [done |]. split; [done |].
  intros q. rewrite deref_modify. case_decide as H; [| done].
  destruct H as [-> _]. simpl. rewrite CopyFrom_union. repeat split. set_solver.
Qed.

Lemma getRoute_fuel_S fuel R route pattern ms h :
  pattern ≠ "" ->
  getRoute_fuel (S fuel) R route pattern ms h =
  match firstSegment pattern with
  | (p, None, _) => Panic R ("missing closing brace in pattern: " +:+ p)
  | (_, Some (k, prm), rest) =>
      let '(R1, r) := child R route k prm ms in
      getRoute_fuel fuel R1 r rest ms h
  end.
Proof.
  intros Hp. simpl. rewrite decide_False by done. unfold firstSegment.
  match goal with |- context [classify ?s ?l] => destruct (classify s l) as [[k prm]|] end;
    [| done].
  destruct (child R route k prm ms) as [R1 r]. by case_decide.
Qed.

Lemma getRoute_fuel_empty fuel R route ms h :
  getRoute_fuel (S fuel) R route "" ms h =
  Ok (modify R route (fun r => set_handlers r (assign_all (handlers r) ms h))) route.
Proof. done. Qed.

(** Running [getRoute] again with the pattern of a call that returned, on the
    router that call left behind (or any router that still has its entries),
    creates nothing: it follows the same routes to the same node, widening
    method sets on the way, and records the handler there. *)
Lemma getRoute_fuel_again fuel :
  forall R route pattern ms1 h1 R1 r1,
    wf R -> route < length (store R) ->
    getRoute_fuel fuel R route pattern ms1 h1 = Ok R1 r1 ->
    forall S ms2 h2,
      wf S -> edges_in R1 S -> route < length (store S) ->
      exists S0, methods_widened S S0 /\ r1 < length (store S0) /\
        getRoute_fuel fuel S route pattern ms2 h2 =
        Ok (modify S0 r1 (fun x => set_handlers x (assign_all (handlers x) ms2 h2))) r1.
Proof.
  induction fuel as [|fuel IH]; intros R route pattern ms1 h1 R1 r1 W Hr Hget
    S ms2 h2 WS He HrS; [done |].
  destruct (decide (pattern = "")) as [->|Hp].
  { rewrite getRoute_fuel_empty in Hget |- *. injection Hget as <- <-.
    exists S. split; [apply methods_widened_refl | done]. }
  rewrite getRoute_fuel_S in Hget |- * by done.
  destruct (firstSegment pattern) as [[p [[k prm]|]] rest]; [| done].
  destruct (child R route k prm ms1) as [R' c] eqn:Hch.
  destruct (wf_child_step _ _ _ _ _ _ _ W Hr Hch) as (W' & _ & Hc' & _).
  destruct (child_step_edges _ _ _ _ _ _ _ W Hr Hch) as (_ & Hedge).
  assert (edges_in R' R1) as He' by (by eapply getRoute_fuel_edges).
  assert (routes (deref S route) !! k = Some c) as HS by (by apply He, He').
  rewrite (child_found _ _ _ _ _ _ HS).
  set (S' := modify S c (fun x => set_methods x (CopyFrom (methods x) ms2))).
  destruct (wf_child S WS route k c HrS HS) as (HcS & _).
  assert (wf S') as WS' by (by apply wf_modify_methods).
  assert (edges_in R1 S') as HeS'.
  { eapply edges_in_trans; [exact He |].
    apply edges_in_same_shape, same_shape_set_methods. }
  assert (c < length (store S')) as HcS' by (unfold S'; by rewrite length_modify).
  destruct (IH R' c rest ms1 h1 R1 r1 W' Hc' Hget S' ms2 h2 WS' HeS' HcS')
    as (S0 & Hw & Hr1 & Hres).
  exists S0. split; [| split; [done | exact Hres]].
  eapply methods_widened_trans; [apply methods_widened_modify | exact Hw].
Qed.

(** ** Strings *)

#[local] Arguments String.append !_ _ / : simpl nomatch.

Lemma append_nil_r (s : string) : s +:+ "" = s.
Proof. induction s; simpl; congruence. Qed.


Lemma length_append (a b : string) :
  String.length (a +:+ b) = String.length a + String.length b.
Proof. induction a; simpl; congruence. Qed.

Lemma length_drop n s : String.length (drop n s) = String.length s - n.
Proof. revert s; induction n as [|n IH]; intros [|c s]; simpl; auto; lia. Qed.

Lemma drop_append (a b : string) : drop (String.length a) (a +:+ b) = b.
Proof. induction a; simpl; congruence. Qed.

Lemma take_append (a b : string) : take (String.length a) (a +:+ b) = a.
Proof. induction a; simpl; congruence. Qed.

Lemma byte_at_0 (s : string) (c : ascii) :
  byte_at s 0 = Some c <-> exists s', s = String c s'.
Proof.
  unfold byte_at; simpl. destruct s as [|a s]; simpl; split.
  - done.
  - intros [s' H]; done.
  - intros [= ->]. by exists s.
  - intros [s' [= -> ->]]. done.
Qed.

Lemma slice_from_1 c s : slice_from (String c s) 1 = s.
Proof. done. Qed.

Lemma stripSlash_slash s : stripSlash (String "/" s) = s.
Proof. done. Qed.

Lemma stripSlash_other s : byte_at s 0 ≠ Some "/"%char -> stripSlash s = s.
Proof. intros H. unfold stripSlash. by rewrite decide_False. Qed.

Lemma length_stripSlash s : String.length (stripSlash s) <= String.length s.
Proof.
  unfold stripSlash. case_decide; [| done]. unfold slice_from.
  rewrite length_drop. lia.
Qed.

Lemma IndexByte_range s c :
  IndexByte s c = (-1)%Z \/ (0 <= IndexByte s c < len s)%Z.
Proof.
  unfold len. induction s as [|a s IH]; simpl; [by left |].
  destruct (Ascii.eqb a c); [right; lia |].
  destruct (Z.eqb_spec (IndexByte s c) (-1)); [by left | right; lia].
Qed.

Lemma IndexByte_slash_free t : slash_free t = true -> IndexByte t "/" = (-1)%Z.
Proof.
  induction t as [|a t IH]; simpl; [done |].
  destruct (Ascii.eqb a "/"); simpl; [done |]. intros H. by rewrite IH.
Qed.

Lemma IndexByte_append t r :
  slash_free t = true -> IndexByte (t +:+ String "/" r) "/" = len t.
Proof.
  unfold len. induction t as [|a t IH]; simpl; [done |].
  destruct (Ascii.eqb a "/"); simpl; [done |]. intros H. rewrite IH by done.
  destruct (Z.eqb_spec (Z.of_nat (String.length t)) (-1)); lia.
Qed.

Lemma IndexByte_0 s c : IndexByte s c = 0%Z -> byte_at s 0 = Some c.
Proof.
  destruct s as [|a s]; simpl; [done |].
  destruct (Ascii.eqb_spec a c) as [->|]; [done |].
  destruct (Z.eqb_spec (IndexByte s c) (-1)); [done |].
  destruct (IndexByte_range s c); lia.
Qed.

Lemma slice_prefix (t r : string) : slice (t +:+ r) 0 (len t) = t.
Proof.
  unfold slice, len. rewrite Z.sub_0_r, Nat2Z.id. simpl. apply take_append.
Qed.

Lemma slice_from_suffix (t r : string) : slice_from (t +:+ r) (len t) = r.
Proof. unfold slice_from, len. rewrite Nat2Z.id. apply drop_append. Qed.

Lemma slice_all (t : string) : slice t 0 (len t) = t.
Proof. rewrite <- (append_nil_r t) at 1. apply slice_prefix. Qed.

Lemma split_slash_nonempty s : split_slash s ≠ [].
Proof.
  destruct s as [|c s]; simpl; [done |].
  destruct (Ascii.eqb c "/"); [done |]. by destruct (split_slash s).
Qed.

Lemma split_slash_free s : Forall (fun t => slash_free t = true) (split_slash s).
Proof.
  induction s as [|c s IH]; simpl; [by repeat constructor |].
  destruct (Ascii.eqb c "/") eqn:E; [by constructor |].
  destruct (split_slash s) as [|t ts]; [by repeat constructor; simpl; rewrite E |].
  inversion IH; subst. constructor; [simpl; by rewrite E | done].
Qed.

Lemma join_split s : join_slash (split_slash s) = s.
Proof.
  induction s as [|c s IH]; simpl; [done |].
  destruct (Ascii.eqb_spec c "/") as [->|Hc].
  - simpl. destruct (split_slash s) as [|t ts] eqn:E; [by destruct (split_slash_nonempty s) |].
    simpl in *. by rewrite IH.
  - destruct (split_slash s) as [|t ts] eqn:E; [by destruct (split_slash_nonempty s) |].
    simpl in *. by rewrite IH.
Qed.

Lemma slash_then_cons t ts : slash_then (t :: ts) = String "/" (t +:+ slash_then ts).
Proof. done. Qed.

Lemma slash_then_split s : slash_then (split_slash s) = String "/" s.
Proof.
  pose proof (join_split s) as H. destruct (split_slash s) as [|t ts] eqn:E;
    [by destruct (split_slash_nonempty s) |].
  rewrite slash_then_cons. simpl in H. by rewrite H.
Qed.

(** ** [getRoute] goes through the segments of the pattern *)

Lemma after_strip t ts :
  slash_free t = true ->
  let p := t +:+ slash_then ts in
  let l := if decide (nextSlug p = (-1)%Z) then len p else nextSlug p in
  l = len t /\ slice p 0 l = t /\
  (if decide (l = len p) then "" else slice_from p l) = slash_then ts.
Proof.
  intros Ht p l. subst p l. unfold nextSlug. destruct ts as [|t2 ts].
  - simpl. rewrite append_nil_r, IndexByte_slash_free by done.
    rewrite decide_True by done. rewrite decide_True by done.
    split; [done |]. split; [apply slice_all | done].
  - rewrite slash_then_cons, IndexByte_append by done.
    rewrite decide_False by (unfold len; lia).
    split; [done |]. split; [apply slice_prefix |].
    rewrite decide_False; [apply slice_from_suffix |].
    unfold len. rewrite length_append. simpl. lia.
Qed.

Lemma firstSegment_slash t ts :
  slash_free t = true ->
  firstSegment (String "/" (t +:+ slash_then ts)) =
  (t +:+ slash_then ts, classify (slugOf t) (len t), slash_then ts).
Proof.
  intros Ht. unfold firstSegment.
  rewrite decide_True by done. rewrite slice_from_1.
  destruct (after_strip t ts Ht) as (-> & -> & ->). done.
Qed.

Lemma slash_free_head c t : slash_free (String c t) = true -> c ≠ "/"%char.
Proof. simpl. destruct (Ascii.eqb_spec c "/"); [done | auto]. Qed.

Lemma firstSegment_noslash t ts :
  slash_free t = true -> t ≠ "" ->
  firstSegment (t +:+ slash_then ts) =
  (t +:+ slash_then ts, classify (slugOf t) (len t), slash_then ts).
Proof.
  intros Ht Hne. unfold firstSegment.
  rewrite decide_False.
  - destruct (after_strip t ts Ht) as (-> & -> & ->). done.
  - destruct t as [|c t]; [done |]. simpl. rewrite byte_at_0.
    intros [s' [= -> _]]. by apply slash_free_head in Ht.
Qed.

Lemma getRoute_fuel_segments ms h ts :
  Forall (fun t => slash_free t = true) ts ->
  forall fuel R route, String.length (slash_then ts) < fuel ->
    getRoute_fuel fuel R route (slash_then ts) ms h =
    registerSegments R route ts ms h.
Proof.
  induction 1 as [|t ts Ht Hts IH]; intros fuel R route Hfuel.
  - destruct fuel; [simpl in Hfuel; lia | done].
  - destruct fuel as [|fuel]; [lia |].
    rewrite slash_then_cons in *. rewrite getRoute_fuel_S by done.
    rewrite firstSegment_slash by done. simpl.
    destruct (classify (slugOf t) (len t)) as [[k prm]|]; [| done].
    destruct (child R route k prm ms) as [R1 r].
    apply IH. simpl in Hfuel. rewrite length_append in Hfuel. lia.
Qed.

(** [getRoute] on any pattern that is not empty. *)
Lemma getRoute_segments R route pattern ms h :
  pattern ≠ "" ->
  getRoute R route pattern ms h =
  registerSegments R route (split_slash (stripSlash pattern)) ms h.
Proof.
  intros Hne. unfold getRoute.
  destruct (decide (byte_at pattern 0 = Some "/"%char)) as [Hs|Hs].
  - apply byte_at_0 in Hs as [s' ->]. rewrite stripSlash_slash.
    rewrite <- slash_then_split.
    apply getRoute_fuel_segments; [apply split_slash_free |].
    rewrite slash_then_split. lia.
  - rewrite stripSlash_other by done.
    pose proof (join_split pattern) as Hj. pose proof (split_slash_free pattern) as Hf.
    destruct (split_slash pattern) as [|t ts]; [done |].
    apply Forall_cons in Hf as [Ht Hts]. simpl in Hj.
    subst pattern.
    assert (t ≠ "") as Ht0.
    { intros ->. destruct ts as [|t2 ts]; [done |]. by apply Hs. }
    rewrite getRoute_fuel_S by done.
    rewrite firstSegment_noslash by done. simpl.
    destruct (classify (slugOf t) (len t)) as [[k prm]|]; [| done].
    destruct (child R route k prm ms) as [R1 r].
    apply getRoute_fuel_segments; [done |].
    rewrite length_append. destruct t; [done | simpl; lia].
Qed.

Lemma Handle_segments R pattern ms h :
  pattern ≠ "" -> pattern ≠ "/" ->
  Handle R pattern ms h =
  match registerSegments R (base R) (patternSegments pattern) ms h with
  | Ok R1 r => Ok R1 (Some r)
  | Panic R1 msg => Panic R1 msg
  | OutOfFuel => OutOfFuel
  end.
Proof.
  intros H1 H2. unfold Handle. rewrite !decide_False by done.
  fold (stripSlash pattern). rewrite getRoute_segments; [done |].
  unfold stripSlash. case_decide as Hs; [| done].
  apply byte_at_0 in Hs as [s' ->]. rewrite slice_from_1. congruence.
Qed.

Lemma registerSegments_fuel R route ts ms h :
  registerSegments R route ts ms h ≠ OutOfFuel.
Proof.
  revert R route. induction ts as [|t ts IH]; intros R route; simpl; [done |].
  destruct (classify (slugOf t) (len t)) as [[k prm]|]; [| done].
  destruct (child R route k prm ms) as [R1 r]. apply IH.
Qed.

(** Registration always ends, in a route or in a panic. *)
Lemma Handle_fuel_enough R pattern ms h : Handle R pattern ms h ≠ OutOfFuel.
Proof.
  destruct (decide (pattern = "")) as [->|H1]; [done |].
  destruct (decide (pattern = "/")) as [->|H2]; [done |].
  rewrite Handle_segments by done.
  pose proof (registerSegments_fuel R (base R) (patternSegments pattern) ms h).
  by destruct (registerSegments R (base R) (patternSegments pattern) ms h).
Qed.

(** ** Malformed patterns *)

Lemma classify_malformed t : malformed t -> classify (slugOf t) (len t) = None.
Proof.
  intros [H1 H2]. assert (t ≠ "") as Hne by (intros ->; done).
  unfold slugOf. rewrite decide_False by done. unfold classify.
  rewrite decide_True by done. by rewrite decide_True.
Qed.

Lemma registerSegments_malformed R route ts ms h seg :
  seg ∈ ts -> malformed seg ->
  exists R' msg, registerSegments R route ts ms h = Panic R' msg.
Proof.
  intros Hin Hbad. revert R route.
  induction ts as [|t ts IH]; intros R route; [by apply elem_of_nil in Hin |].
  simpl. destruct (classify (slugOf t) (len t)) as [[k prm]|] eqn:Hc; [| by eauto].
  apply elem_of_cons in Hin as [->|Hin].
  - rewrite classify_malformed in Hc; done.
  - destruct (child R route k prm ms) as [R1 r]. by apply IH.
Qed.

Lemma elem_of_split_stripSlash seg s :
  seg ∈ split_slash s -> seg ≠ "" -> seg ∈ split_slash (stripSlash s).
Proof.
  intros Hin Hne. unfold stripSlash. case_decide as Hs; [| done].
  apply byte_at_0 in Hs as [s' ->]. rewrite slice_from_1.
  simpl in Hin. apply elem_of_cons in Hin as [->|Hin]; done.
Qed.

(** C7: a pattern with a segment that starts with an opening brace but does
    not end with a closing one makes the registration call itself panic. *)
Theorem malformed_pattern_panics R pattern ms h seg :
  seg ∈ split_slash pattern -> malformed seg ->
  exists R' msg, Handle R pattern ms h = Panic R' msg.
Proof.
  intros Hin Hbad.
  assert (seg ≠ "") as Hne by (intros ->; by destruct Hbad).
  assert (pattern ≠ "") as H1.
  { intros ->. simpl in Hin. apply list_elem_of_singleton in Hin. done. }
  assert (pattern ≠ "/") as H2.
  { intros ->. simpl in Hin. set_solver. }
  rewrite Handle_segments by done.
  destruct (registerSegments_malformed R (base R) (patternSegments pattern) ms h seg)
    as (R' & msg & ->); [| done | by eauto].
  unfold patternSegments. by do 2 (apply elem_of_split_stripSlash; [| done]).
Qed.

Lemma malformed_pattern_panics_witness :
  exists R' msg,
    Handle NewRouter "/users/{id/posts" MethodsGet (Some (UserHandler 1)) = Panic R' msg.
Proof.
  apply (malformed_pattern_panics NewRouter "/users/{id/posts" MethodsGet
           (Some (UserHandler 1)) "{id").
  - vm_compute. set_solver.
  - split; vm_compute; congruence.
Defined.

(** ** The second registration of a pattern *)

Lemma getRoute_fuel_result fuel R route pattern ms h R1 r1 :
  wf R -> route < length (store R) ->
  getRoute_fuel fuel R route pattern ms h = Ok R1 r1 ->
  wf R1 /\ r1 < length (store R1) /\ length (store R) <= length (store R1) /\
  base R1 = base R /\
  forall m, m ∈ ms -> handlers (deref R1 r1) !! m = Some h.
Proof.
  intros W Hr Hget.
  set (I := fun (R' : Router) (route : nat) =>
              wf R' /\ route < length (store R') /\
              length (store R) <= length (store R') /\ base R' = base R).
  assert (forall R0 route0 slug prm R' r,
             I R0 route0 -> child R0 route0 slug prm ms = (R', r) -> I R' r) as Hstep.
  { intros R0 route0 slug prm R' r (W0 & Hr0 & Hl & Hb) Hch.
    destruct (wf_child_step _ _ _ _ _ _ _ W0 Hr0 Hch) as (? & ? & ? & ?).
    split; [done |]. split; [done |]. split; [lia | congruence]. }
  pose proof (getRoute_fuel_inv I ms h Hstep fuel R route pattern) as H.
  assert (I R route) as HI by (split; [done |]; split; [done |]; split; [lia | done]).
  specialize (H HI). rewrite Hget in H.
  destruct H as (R0 & (W0 & Hr0 & Hl & Hb) & ->).
  split; [by apply wf_modify_handlers |]. rewrite length_modify.
  split; [done |]. split; [done |]. split; [done |].
  intros m Hm. rewrite deref_modify_eq by done. simpl.
  rewrite lookup_assign_all. by rewrite decide_True.
Qed.

Lemma same_shape_handlers_modify S0 r g :
  forall q, q ≠ r ->
    handlers (deref (modify S0 r (fun x => set_handlers x (g x))) q) =
    handlers (deref S0 q).
Proof. intros q Hq. by rewrite deref_modify_ne. Qed.

(** C9: registering a pattern a second time for a method reaches the node
    of the first registration, creates no node, and replaces the handler the
    first one recorded for that method there; no other handler table
    changes. *)
Theorem second_registration_overwrites R pattern ms1 h1 ms2 h2 R1 r1 m :
  reachable R ->
  Handle R pattern ms1 h1 = Ok R1 (Some r1) ->
  m ∈ ms1 -> m ∈ ms2 ->
  handlers (deref R1 r1) !! m = Some h1 /\
  exists R2,
    Handle R1 pattern ms2 h2 = Ok R2 (Some r1) /\
    handlers (deref R2 r1) !! m = Some h2 /\
    same_shape R1 R2 /\
    forall q, q ≠ r1 -> handlers (deref R2 q) = handlers (deref R1 q).
Proof.
  intros HR HH Hm1 Hm2. pose proof (wf_reachable R HR) as W.
  pose proof (wf_base R W) as Hb.
  unfold Handle in *.
  case_decide as H1; [done |]. case_decide as H2.
  - injection HH as <- <-. simpl.
    set (R1 := modify (modify R (base R) (fun r => set_handlers r (assign_all (handlers r) ms1 h1)))
                      (base R) (fun r => set_methods r (CopyFrom (methods r) ms1))).
    assert (base R < length (store R1)) as Hb1 by (unfold R1; by rewrite !length_modify).
    split.
    { unfold R1. rewrite !deref_modify_eq by (by rewrite ?length_modify). simpl.
      rewrite lookup_assign_all. by rewrite decide_True. }
    eexists. split; [reflexivity |]. split; [| split].
    + rewrite !deref_modify_eq by (by rewrite ?length_modify). simpl.
      rewrite lookup_assign_all. by rewrite decide_True.
    + eapply same_shape_trans; [apply same_shape_set_handlers | apply same_shape_set_methods].
    + intros q Hq. rewrite !deref_modify_ne by done. done.
  - set (p := if decide (byte_at pattern 0 = Some "/"%char) then slice_from pattern 1
              else pattern) in *.
    unfold getRoute in *.
    destruct (getRoute_fuel (S (String.length p)) R (base R) p ms1 h1)
      as [R1' r1'| |] eqn:Hget; [| done | done].
    injection HH as <- <-.
    destruct (getRoute_fuel_result _ _ _ _ _ _ _ _ W Hb Hget) as (W1 & Hr1 & Hl & Hb1 & Hh).
    split; [by apply Hh |].
    destruct (getRoute_fuel_again _ _ _ _ _ _ _ _ W Hb Hget R1' ms2 h2 W1
                (edges_in_refl R1') ltac:(lia)) as (S0 & Hw & Hr0 & Hres).
    rewrite Hb1, Hres. eexists. split; [reflexivity |].
    destruct Hw as (Hs & _ & _ & Hq).
    split; [| split].
    + rewrite deref_modify_eq by done. simpl.
      rewrite lookup_assign_all. by rewrite decide_True.
    + eapply same_shape_trans; [exact Hs | apply same_shape_set_handlers].
    + intros q Hne. rewrite deref_modify_ne by done. by destruct (Hq q) as (_ & -> & _).
Qed.

Lemma second_registration_overwrites_witness :
  let R1 := state_after NewRouter
              (Handle NewRouter "/slug1/{id}" MethodsGet (Some (UserHandler 1))) in
  exists R2,
    Handle R1 "/slug1/{id}" MethodsGet (Some (UserHandler 2)) = Ok R2 (Some 2) /\
    handlers (deref R2 2) !! "GET" = Some (Some (UserHandler 2)) /\
    length (store R2) = 3.
Proof.
  intros R1.
  destruct (second_registration_overwrites NewRouter "/slug1/{id}"
              MethodsGet (Some (UserHandler 1)) MethodsGet (Some (UserHandler 2))
              R1 2 "GET") as (_ & R2 & H1 & H2 & (_ & H3 & _) & _).
  - apply reach_NewRouter.
  - vm_compute. reflexivity.
  - vm_compute. set_solver.
  - vm_compute. set_solver.
  - exists R2. split; [exact H1 |]. split; [exact H2 |]. rewrite H3. reflexivity.
Defined.

(** ** Method sets *)

Lemma foldl_Set (acc : Methods) (l : list string) :
  foldl Set_ acc l = list_to_set l ∪ acc.
Proof.
  revert acc. induction l as [|x l IH]; intros acc; simpl; [set_solver |].
  rewrite IH. unfold Set_. set_solver.
Qed.

(** C8: a method set built by [NewMethods] and [Set] from strings other than
    the wildcard does not contain the wildcard, and [HasOrAll] accepts exactly
    the methods that were added. *)
Theorem named_methods_exclude_wildcard (init added : list string) :
  Forall (fun m => m ≠ MethodAll) (init ++ added) ->
  let ms := foldl Set_ (NewMethods init) added in
  MethodAll ∉ ms /\ forall q, HasOrAll ms q = true <-> q ∈ (init ++ added).
Proof.
  intros Hall ms. subst ms. rewrite foldl_Set, NewMethods_list.
  rewrite Forall_forall in Hall.
  assert (MethodAll ∉ (list_to_set added ∪ list_to_set init : Methods)) as Hno.
  { intros Hin. apply (Hall MethodAll); [| done]. set_solver. }
  split; [done |]. intros q. unfold HasOrAll.
  rewrite (bool_decide_eq_false_2 _ Hno), orb_false_r, bool_decide_eq_true.
  set_solver.
Qed.

Lemma named_methods_exclude_wildcard_witness :
  let ms := foldl Set_ (NewMethods ["GET"; "POST"]) ["PUT"] in
  MethodAll ∉ ms /\ forall q, HasOrAll ms q = true <-> q ∈ (["GET"; "POST"] ++ ["PUT"]).
Proof.
  apply (named_methods_exclude_wildcard ["GET"; "POST"] ["PUT"]).
  repeat constructor; vm_compute; congruence.
Defined.

(** ** The three states of a catch-all entry *)

Lemma deref_out_of_range R p : length (store R) <= p -> deref R p = zeroRoute.
Proof.
  intros H. unfold deref. by rewrite list_lookup_total_alt, lookup_ge_None_2.
Qed.

(** C6, against the code: with a handler stored under the wildcard key, an
    entry that stores [nil] for GET resolves to the wildcard's handler, not
    to the node's own handler for GET. *)
Lemma nil_entry_yields_to_wildcard :
  let R := Scenario.nilAndWildcard in
  matchAny (deref R 1) !! "GET" = Some None /\
  getHandler R 1 "GET" = Some (UserHandler 1) /\
  getMatchAnyHandler R 1 "GET" = Some (UserHandler 2) /\
  getMatchAnyHandler R 1 "GET" ≠ getHandler R 1 "GET".
Proof. vm_compute. repeat split; congruence. Qed.

(** C6, amended: an entry absent for the method and for the wildcard
    resolves to nothing; an entry with a handler for the method resolves to
    it; an entry storing [nil] for the method (what [MatchAny] stores)
    resolves to the wildcard entry's handler when that entry has one, and
    otherwise to the node's own handler for the method. *)
Theorem catch_all_entry_states R route method :
  let ma := matchAny (deref R route) in
  (ma !! method = None -> ma !! MethodAll = None ->
   getMatchAnyHandler R route method = None) /\
  (forall h, ma !! method = Some (Some h) ->
   getMatchAnyHandler R route method = Some h) /\
  (ma !! method = Some None ->
   (forall h, ma !! MethodAll = Some (Some h) ->
      getMatchAnyHandler R route method = Some h) /\
   (ma !! MethodAll = None \/ ma !! MethodAll = Some None ->
      getMatchAnyHandler R route method = getHandler R route method)) /\
  (forall ms, route < length (store R) -> method ∈ ms ->
   matchAny (deref (MatchAny R route ms) route) !! method = Some None).
Proof.
  intros ma. unfold getMatchAnyHandler, index_handler. fold ma.
  split; [| split; [| split]].
  - intros -> ->. done.
  - intros h ->. done.
  - intros ->. split.
    + intros h ->. done.
    + intros [-> | ->]; done.
  - intros ms Hr Hm. unfold MatchAny, HandleAny.
    rewrite deref_modify_eq by done. simpl.
    rewrite lookup_assign_all. by rewrite decide_True.
Qed.

Lemma catch_all_entry_states_witness :
  let R := MatchAny (Scenario.reg NewRouter "/a" MethodsGet (Some (UserHandler 1)))
                    1 MethodsGet in
  matchAny (deref R 1) !! "GET" = Some None /\
  getMatchAnyHandler R 1 "GET" = getHandler R 1 "GET".
Proof.
  intros R.
  destruct (catch_all_entry_states R 1 "GET") as (_ & _ & H & _).
  assert (matchAny (deref R 1) !! "GET" = Some None) as E by (vm_compute; reflexivity).
  split; [exact E |].
  destruct (H E) as [_ H2]. apply H2. left. vm_compute. reflexivity.
Defined.

(** ** Parameter children *)

Lemma reachable_twoParams : reachable Scenario.twoParams.
Proof. apply reach_Handle, reach_Handle, reach_NewRouter. Qed.

(** C5, against the code: after [/a/{x}] and [/a/{y}] the node of [/a] has
    two parameter children. *)
Lemma two_parameter_children :
  reachable Scenario.twoParams /\
  ~ (length (paramChildren Scenario.twoParams 1) <= 1).
Proof.
  split; [apply reach_Handle, reach_Handle, reach_NewRouter |].
  vm_compute. lia.
Qed.

(** C5, amended: the children of a node are keyed by their name, so a node
    has at most one child, parameter or not, for each name; a segment whose
    key is already present reuses that child and creates nothing, whatever
    its kind, and a parameter segment with another name gets a child of its
    own. *)
Theorem children_keyed_by_name R p :
  reachable R ->
  (forall k c, routes (deref R p) !! k = Some c -> name (deref R c) = k) /\
  (forall k1 k2 c1 c2,
      routes (deref R p) !! k1 = Some c1 -> routes (deref R p) !! k2 = Some c2 ->
      name (deref R c1) = name (deref R c2) -> c1 = c2) /\
  (forall k prm ms c, routes (deref R p) !! k = Some c ->
      snd (child R p k prm ms) = c /\ same_shape R (fst (child R p k prm ms))) /\
  (forall k ms, routes (deref R p) !! k = None -> p < length (store R) ->
      let R' := fst (child R p k true ms) in
      let c := snd (child R p k true ms) in
      c = length (store R) /\ routes (deref R' p) = <[k := c]> (routes (deref R p)) /\
      param (deref R' c) = true /\ name (deref R' c) = k).
Proof.
  intros HR. pose proof (wf_reachable R HR) as W.
  assert (forall k c, routes (deref R p) !! k = Some c -> name (deref R c) = k) as Hname.
  { intros k c Hc. destruct (decide (p < length (store R))) as [Hp|Hp].
    - by destruct (wf_child R W p k c Hp Hc) as (_ & _ & ?).
    - rewrite deref_out_of_range in Hc by lia. simpl in Hc. by rewrite lookup_empty in Hc. }
  split; [done |]. split; [| split].
  - intros k1 k2 c1 c2 H1 H2 Hn.
    apply Hname in H1 as E1. apply Hname in H2 as E2.
    assert (k1 = k2) by congruence. subst. congruence.
  - intros k prm ms c Hc. rewrite (child_found _ _ _ _ _ _ Hc). simpl.
    split; [done | apply same_shape_set_methods].
  - intros k ms Hnone Hp. rewrite (child_fresh _ _ _ _ _ Hnone). simpl.
    split; [done |]. rewrite !deref_child_fresh by done.
    rewrite decide_True by done. rewrite decide_False by lia.
    rewrite decide_True by done. done.
Qed.

Lemma children_keyed_by_name_witness :
  name (deref Scenario.twoParams 2) = "x" /\ name (deref Scenario.twoParams 3) = "y".
Proof.
  destruct (children_keyed_by_name Scenario.twoParams 1) as (H & _).
  - apply reachable_twoParams.
  - split; apply H; vm_compute; reflexivity.
Defined.

(** ** Dispatch does not depend on the order of [range] where no choice exists *)

Lemma find_head_filter {A} (P : A -> bool) (l : list A) :
  List.find P l = head (List.filter P l).
Proof. induction l as [|x l IH]; simpl; [done |]. by destruct (P x). Qed.

Lemma Permutation_List_filter {A} (P : A -> bool) (l1 l2 : list A) :
  l1 ≡ₚ l2 -> List.filter P l1 ≡ₚ List.filter P l2.
Proof.
  induction 1 as [|x l1 l2 _ IH|x y l|l1 l2 l3 _ IH1 _ IH2]; simpl.
  - done.
  - destruct (P x); [by constructor | done].
  - destruct (P x), (P y); try done. apply perm_swap.
  - by etrans.
Qed.

Lemma find_Permutation_unique {A} (P : A -> bool) (l1 l2 : list A) :
  l1 ≡ₚ l2 -> length (List.filter P l2) <= 1 ->
  List.find P l1 = List.find P l2.
Proof.
  intros Hp Hlen. rewrite !find_head_filter.
  apply (Permutation_List_filter P) in Hp.
  destruct (List.filter P l2) as [|x [|y l]]; simpl in Hlen; [| | lia].
  - by apply Permutation_nil_r in Hp as ->.
  - by apply Permutation_singleton_r in Hp as ->.
Qed.

Lemma findParam_sorted ord R route method :
  unambiguous R method = true ->
  findParam ord R route method = findParam sortedRange R route method.
Proof.
  intros Hu. unfold findParam. f_equal. simpl.
  apply find_Permutation_unique; [apply range_of_perm |].
  destruct (decide (route < length (store R))) as [Hr|Hr].
  - unfold unambiguous in Hu. rewrite forallb_forall in Hu.
    specialize (Hu (deref R route)). apply Nat.leb_le, Hu.
    apply list_elem_of_In, list_elem_of_lookup. exists route. by apply lookup_deref.
  - rewrite deref_out_of_range by lia. simpl. rewrite map_to_list_empty. simpl. lia.
Qed.

Lemma pathLoop_sorted ord R method ts :
  unambiguous R method = true ->
  forall fuel urlPath route params,
    pathLoop fuel ord R method ts urlPath route params =
    pathLoop fuel sortedRange R method ts urlPath route params.
Proof.
  intros Hu. induction fuel as [|fuel IH]; intros urlPath route params; simpl; [done |].
  case_decide; [done |].
  destruct (nextSegment ts urlPath) as [slug rest].
  destruct (routes (deref R route) !! _); [by rewrite IH |].
  rewrite (findParam_sorted ord) by done.
  destruct (findParam sortedRange R route method); [by rewrite IH | done].
Qed.

Lemma ServeHTTP_sorted ord R method path :
  unambiguous R method = true ->
  ServeHTTP ord R method path = ServeHTTP sortedRange R method path.
Proof.
  intros Hu. unfold ServeHTTP.
  destruct (bool_decide _ && bool_decide _); by rewrite pathLoop_sorted.
Qed.

(** ** Trailing slashes *)

(** C4: [/slug1] and [/slug1/] are two nodes, the second a literal child
    of the first stored under the marker [/], which no segment of a pattern
    or path can be; after registering the first with handler [A] and the
    second with handler [B], both for GET, a GET of [/slug1] invokes [A] and a
    GET of [/slug1/] invokes [B]. *)
Theorem trailing_slash_is_a_node_of_its_own (ord : RangeOrder) (A B : HandlerImpl) :
  let R1 := Scenario.reg NewRouter "/slug1" MethodsGet (Some A) in
  let R2 := Scenario.reg R1 "/slug1/" MethodsGet (Some B) in
  Handle NewRouter "/slug1" MethodsGet (Some A) = Ok R1 (Some 1) /\
  Handle R1 "/slug1/" MethodsGet (Some B) = Ok R2 (Some 2) /\
  routes (deref R2 1) !! "/" = Some 2 /\
  name (deref R2 2) = "/" /\ param (deref R2 2) = false /\
  (forall s seg, seg ∈ split_slash s -> seg ≠ "/") /\
  ServeHTTP ord R2 "GET" "/slug1" = Some (Endpoint A ∅) /\
  ServeHTTP ord R2 "GET" "/slug1/" = Some (Endpoint B ∅).
Proof.
  intros R1 R2.
  split; [vm_compute; reflexivity |]. split; [vm_compute; reflexivity |].
  split; [vm_compute; reflexivity |]. split; [vm_compute; reflexivity |].
  split; [vm_compute; reflexivity |]. split.
  { intros s seg Hin ->. pose proof (split_slash_free s) as Hf.
    rewrite Forall_forall in Hf. by apply Hf in Hin. }
  assert (unambiguous R2 "GET" = true) as Hu by (vm_compute; reflexivity).
  rewrite (ServeHTTP_sorted ord R2 "GET" "/slug1" Hu).
  rewrite (ServeHTTP_sorted ord R2 "GET" "/slug1/" Hu).
  split; vm_compute; reflexivity.
Qed.

Lemma trailing_slash_is_a_node_of_its_own_witness :
  "" ∈ split_slash "/slug1/" /\ "" ≠ "/".
Proof.
  destruct (trailing_slash_is_a_node_of_its_own sortedRange (UserHandler 1) (UserHandler 2))
    as (_ & _ & _ & _ & _ & H & _).
  assert ("" ∈ split_slash "/slug1/") as Hin by (vm_compute; set_solver).
  split; [exact Hin | exact (H _ _ Hin)].
Defined.

(** ** Fallback resolution *)

Lemma parentLoop_chain R method :
  wf R ->
  forall fuel route,
    (forall p, route = Some p -> p < fuel /\ p < length (store R)) ->
    parentLoop fuel R route method =
    Some (firstFallback R (ancestors fuel R route) method).
Proof.
  intros W. induction fuel as [|fuel IH]; intros [p|] Hp; simpl; try done.
  - destruct (Hp p eq_refl); lia.
  - destruct (Hp p eq_refl) as [Hp1 Hp2].
    destruct (getMatchAnyHandler R p method); [done |].
    apply IH. intros q Hq. pose proof (wf_parent R W p q Hp2 Hq). lia.
Qed.


Lemma getParentMatch_chain R route method :
  wf R -> route < length (store R) ->
  getParentMatch R route method =
  Some (firstFallback R (fallbackChain R route) method).
Proof.
  intros W Hr. unfold getParentMatch, fallbackChain.
  case_decide as Hn.
  - destruct (routes (deref R route) !! "/") as [s|]; simpl.
    + destruct (getMatchAnyHandler R s method); [done |].
      apply (parentLoop_chain R method W). by intros p [= <-].
    + apply (parentLoop_chain R method W). by intros p [= <-].
  - apply (parentLoop_chain R method W). intros q Hq.
    destruct (parent (deref R route)) as [p|] eqn:Hp; [| done].
    pose proof (wf_parent R W route p Hr Hp).
    assert (q < p) by (apply (wf_parent R W p q); [lia | done]). lia.
Qed.












(** ** Precedence of the slash child *)

Lemma reachable_plainOnly A : reachable (Scenario2.plainOnly A).
Proof.
  unfold Scenario2.plainOnly, MatchAny.
  apply reach_HandleAny; [apply reach_Handle, reach_NewRouter |].
  vm_compute. lia.
Qed.

Lemma reachable_both A B : reachable (Scenario2.both A B).
Proof.
  unfold Scenario2.both, MatchAny.
  apply reach_HandleAny; [apply reach_Handle, reachable_plainOnly |].
  vm_compute. lia.
Qed.

(** C2, against the code: with [/a] and [/a/] both registered as
    catch-alls, a GET of [/a/b] fails under the children of [/a]; the node of
    [/a/] is not among the ancestors of the node of [/a], and the upward walk
    from [/a] would give the handler of [/a]; the router serves the handler
    of [/a/]. *)
Lemma request_under_plain_node_falls_back_to_slash_node :
  let R := Scenario2.both (UserHandler 1) (UserHandler 2) in
  routes (deref R (base R)) !! "a" = Some 1 /\
  routes (deref R 1) !! "/" = Some 2 /\
  routes (deref R 1) !! "b" = None /\
  ancestors (length (store R)) R (Some 1) = [1; 0] /\
  inclusiveAncestorFallback R 1 "GET" = Some (UserHandler 1) /\
  getHandler R 2 "GET" = Some (UserHandler 2) /\
  ServeHTTP sortedRange R "GET" "/a/b" = Some (Fallback (UserHandler 2) ∅).
Proof. vm_compute. repeat split; reflexivity. Qed.

(** C2, amended: fallback resolution at a node that is not a slash node
    consults the catch-all of its slash child first, and only then the node
    and its ancestors; resolution at a slash node consults neither that node
    nor its parent and goes on from the grandparent.  So, with [/a] and
    [/a/] both catch-alls, a request for [/a/b] (which fails under the
    children of [/a]) gets the handler of [/a/]; with [/a/] alone, so does a
    request for [/a]; with [/a] alone, a request for [/a/b] gets the handler
    of [/a], but a request for [/a/] does not: it is not found. *)
Theorem slash_child_takes_precedence (ord : RangeOrder) (A B : HandlerImpl) :
  (forall R a s method h,
      wf R -> a < length (store R) -> name (deref R a) ≠ "/" ->
      routes (deref R a) !! "/" = Some s ->
      getMatchAnyHandler R s method = Some h ->
      getParentMatch R a method = Some (Some h)) /\
  (forall R s method,
      wf R -> s < length (store R) -> name (deref R s) = "/" ->
      getParentMatch R s method =
      Some (firstFallback R
              (ancestors (length (store R)) R
                 (match parent (deref R s) with
                  | Some a => parent (deref R a)
                  | None => None
                  end)) method)) /\
  ServeHTTP ord (Scenario2.both A B) "GET" "/a/b" = Some (Fallback B ∅) /\
  ServeHTTP ord (Scenario2.slashOnly B) "GET" "/a" = Some (Fallback B ∅) /\
  ServeHTTP ord (Scenario2.plainOnly A) "GET" "/a/b" = Some (Fallback A ∅) /\
  ServeHTTP ord (Scenario2.plainOnly A) "GET" "/a/" =
    Some (NotFoundServed (Some WriteNotFound) ∅).
Proof.
  split; [| split].
  - intros R a s method h W Ha Hn Hs Hh.
    rewrite getParentMatch_chain by done. unfold fallbackChain.
    rewrite decide_True by done. rewrite Hs. simpl. by rewrite Hh.
  - intros R s method W Hs Hn.
    rewrite getParentMatch_chain by done. unfold fallbackChain.
    by rewrite decide_False by (intros H; by apply H).
  - assert (unambiguous (Scenario2.both A B) "GET" = true) as H1 by (vm_compute; reflexivity).
    assert (unambiguous (Scenario2.slashOnly B) "GET" = true) as H2 by (vm_compute; reflexivity).
    assert (unambiguous (Scenario2.plainOnly A) "GET" = true) as H3 by (vm_compute; reflexivity).
    rewrite (ServeHTTP_sorted ord _ "GET" "/a/b" H1).
    rewrite (ServeHTTP_sorted ord _ "GET" "/a" H2).
    rewrite (ServeHTTP_sorted ord _ "GET" "/a/b" H3).
    rewrite (ServeHTTP_sorted ord _ "GET" "/a/" H3).
    repeat split; vm_compute; reflexivity.
Qed.

Lemma slash_child_takes_precedence_witness :
  let R := Scenario2.both (UserHandler 1) (UserHandler 2) in
  getParentMatch R 1 "GET" = Some (Some (UserHandler 2)) /\
  getParentMatch R 2 "GET" = Some None.
Proof.
  intros R.
  assert (wf R) as W by apply wf_reachable, reachable_both.
  destruct (slash_child_takes_precedence sortedRange (UserHandler 1) (UserHandler 2))
    as (H1 & H2 & _).
  split.
  - apply (H1 R 1 2 "GET" (UserHandler 2) W); vm_compute; try reflexivity;
      try lia; congruence.
  - rewrite (H2 R 2 "GET" W); vm_compute; try reflexivity; lia.
Defined.

(** ** A pattern registered alone *)






















(** Empty segments are a case apart.  Registration keeps every empty
    segment of a pattern as a marker node, while dispatch drops the last of
    two slashes that end a path: the path [/a//] does not reach the node of
    the pattern [/a//].  And a parameter that meets an empty segment is bound
    to the marker, not to the empty text.  The statement below is therefore
    about segments and values that are not empty. *)
Lemma empty_segments_are_apart :
  ServeHTTP sortedRange Scenario3.doubleSlash "GET" "/a//" =
    Some (NotFoundServed (Some WriteNotFound) ∅) /\
  ServeHTTP sortedRange Scenario3.oneParam "GET" "/a/" =
    Some (Endpoint (UserHandler 1) {[ "id" := "/" ]}).
Proof. vm_compute. split; reflexivity. Qed.




(** ** The repository's test on the model *)

(** The requests of [TestRouter] and the handlers the test expects: each
    handler is identified by the text it writes (see [TestRouter.router]),
    handler 0 being the catch-all of the root that answers with
    [handleAnyCode]. *)
Lemma TestRouter_passes :
  map (fun p => TestRouter.servedBy (TestRouter.get p))
      ["/slug1"; "/slug1/"; "/slug1/slug1.1"; "/slug1/slug1.1/";
       "/slug1//slug1.1"; "/slug2/SOMETHING"; "/slug2/SOMETHINGMORE/";
       "/slug2/SOMETHING/slug2.1.1"; "/fallback-slash"; "/fallback-slash/";
       "/fallback-slash/failing"; "/fallback-slash2/"; "/fallback-slash2";
       "/slug2/SOMETHING/slug2.1.1/slug2.1.1.1"; "/fallback-slash3/"] =
  [Some (Some (UserHandler 3), None); Some (Some (UserHandler 4), None);
   Some (Some (UserHandler 6), None); Some (Some (UserHandler 7), None);
   Some (Some (UserHandler 8), None);
   Some (Some (UserHandler 9), Some "SOMETHING");
   Some (Some (UserHandler 10), Some "SOMETHINGMORE");
   Some (Some (UserHandler 11), Some "SOMETHING");
   Some (Some (UserHandler 12), None); Some (Some (UserHandler 13), None);
   Some (Some (UserHandler 13), None); Some (Some (UserHandler 14), None);
   Some (Some (UserHandler 14), None);
   Some (Some (UserHandler 0), Some "SOMETHING");
   Some (Some (UserHandler 0), None)].
Proof. vm_compute. reflexivity. Qed.
